(** * strutil: a growable C string behind a handle, and a handle registry

    A shallow embedding of [src/strutil.c].  Memory blocks are lists of
    bytes, the C library routines the code calls are given their ISO C
    meaning on such blocks, and every function of the library is a Rocq
    function over the handle, the allocator and the input stream. *)

From Stdlib Require Import ZArith Lia.
From stdpp Require Import base option list strings gmap.

Local Open Scope Z_scope.
Local Open Scope nat_scope.

(** ** Bytes and blocks *)

(** A [char] is its value as a [Z].  The code only compares bytes with
    ASCII letters, the space, the newline and zero, and only flips bit 5
    of ASCII letters, so the signedness of [char] never shows. *)
Definition byte_of_ascii (a : Ascii.ascii) : Z := Z.of_nat (Ascii.nat_of_ascii a).

(** The bytes of a string literal, without the terminator. *)
Definition bytes (s : string) : list Z := byte_of_ascii <$> String.list_ascii_of_string s.

(** The block a string literal occupies: its bytes and the terminator. *)
Definition lit (s : string) : list Z := bytes s ++ [0%Z].

(** [errno.h] (Linux values). *)
Definition EINVAL : Z := 22.
Definition ENOMEM : Z := 12.

(** [size_t] is 64 bits wide; [size_t x] is [x] as the machine keeps it. *)
Definition SIZE_MAX : Z := 2 ^ 64 - 1.
Definition size_t (x : Z) : Z := x mod 2 ^ 64.

Definition MAX_STRING_SIZE : Z := (SIZE_MAX / 100) * 95.

(** ** The allocator

    Each request to [malloc], [calloc] or [realloc] consumes one entry:
    [None] when the request is refused, [Some j] when it is granted and
    the bytes the program has not written yet read as [j].  A list that
    ran out grants everything. *)
Definition Allocator := list (option Z).

Definition request (h : Allocator) : option Z * Allocator :=
  match h with
  | [] => (Some 0%Z, [])
  | o :: r => (o, r)
  end.

Definition malloc (n : nat) (h : Allocator) : option (list Z) * Allocator :=
  let (o, h') := request h in ((λ j, replicate n j) <$> o, h').

Definition calloc (n : nat) (h : Allocator) : option (list Z) * Allocator :=
  let (o, h') := request h in ((λ _, replicate n 0%Z) <$> o, h').

(** [realloc b n]: the first [min n (length b)] bytes are kept. *)
Definition realloc (b : list Z) (n : nat) (h : Allocator) : option (list Z) * Allocator :=
  let (o, h') := request h in ((λ j, resize n j b) <$> o, h').

(** An allocator that grants whatever it is asked. *)
Definition generous (h : Allocator) : Prop := Forall is_Some h.

(** Every request made between [h] and [h'] was granted: the entries
    consumed are all of the form [Some j]. *)
Definition granted (h h' : Allocator) : Prop :=
  ∃ js : list Z, h = (Some <$> js) ++ h'.

(** ** The C library on blocks

    A pointer into a block is an offset; a [const char *] argument is the
    block from the byte it points to. *)

(** [strlen]: the bytes before the first zero.  A block without a zero is
    not a string (reading on is undefined); the model stops at its end. *)
Fixpoint strlen (s : list Z) : nat :=
  match s with
  | [] => 0
  | c :: r => if (c =? 0)%Z then 0 else S (strlen r)
  end.

(** The content of the string held in a block. *)
Definition cstr (s : list Z) : list Z := take (strlen s) s.

(** A text: no zero byte in [c]. *)
Definition text (c : list Z) : Prop := Forall (λ x, x ≠ 0%Z) c.

(** A block is terminated when the scan for the zero stays inside it. *)
Definition terminated (s : list Z) : Prop := strlen s < length s.

(** Store [vs] from offset [i] on.  A store outside the block is undefined
    in C; in the model it leaves the block as it is. *)
Fixpoint poke (b : list Z) (i : nat) (vs : list Z) : list Z :=
  match vs with
  | [] => b
  | v :: r => poke (<[i := v]> b) (S i) r
  end.

Definition strcpy (dst src : list Z) : list Z := poke dst 0 (cstr src ++ [0%Z]).

Definition strcat (dst src : list Z) : list Z :=
  poke dst (strlen dst) (cstr src ++ [0%Z]).

(** [strncpy]: exactly [n] bytes are written, zeros after the end of [src]. *)
Definition strncpy (dst src : list Z) (n : nat) : list Z :=
  poke dst 0 (take n (cstr src ++ replicate n 0%Z)).

(** [strncat]: at most [n] bytes of [src], then a terminator. *)
Definition strncat (dst src : list Z) (n : nat) : list Z :=
  poke dst (strlen dst) (take n (cstr src) ++ [0%Z]).

(** [memmove b dst src n]: [n] bytes from offset [src] to offset [dst] of
    the same block, as if through a temporary. *)
Definition memmove (b : list Z) (dst src n : nat) : list Z :=
  poke b dst (take n (drop src b)).

(** [strrchr]: offset of the last occurrence of [c]; the terminator
    counts as part of the string. *)
Fixpoint strrchr (s : list Z) (c : Z) : option nat :=
  match s with
  | [] => None
  | x :: r =>
      if (x =? 0)%Z then (if (c =? 0)%Z then Some 0 else None)
      else match strrchr r c with
           | Some i => Some (S i)
           | None => if (x =? c)%Z then Some 0 else None
           end
  end.

Fixpoint starts_with (n h : list Z) : bool :=
  match n, h with
  | [], _ => true
  | _ :: _, [] => false
  | x :: n', y :: h' => (x =? y)%Z && starts_with n' h'
  end.

Fixpoint find_from (n h : list Z) : option nat :=
  if starts_with n h then Some 0
  else match h with
       | [] => None
       | _ :: t => S <$> find_from n t
       end.

(** [strstr]: offset of the first occurrence of the string [needle] in the
    string [hay]; an empty needle is found at offset 0. *)
Definition strstr (hay needle : list Z) : option nat :=
  find_from (cstr needle) (cstr hay).

(** ** The handle

    Lengths of strings are [nat]s.  The source keeps them in [size_t] and
    subtracts only after a test or a successful search has made the
    difference non-negative, so no wrap-around is lost; where a
    difference can wrap ([get_dyn_input], [str_add_input]) the model
    computes in [Z] through [size_t]. *)

(** [struct Str].  The mutex is not modelled: calls are taken one at a
    time, which is what the lock enforces. *)
Record Str := mkStr { data : option (list Z); is_dynamic : bool }.

Definition set_data (s : Str) (d : option (list Z)) : Str :=
  {| data := d; is_dynamic := is_dynamic s |}.

(** What a caller can observe of a handle: the string in its buffer. *)
Definition content (self : option Str) : option (list Z) :=
  s ← self; cstr <$> data s.

Definition str_init (h : Allocator) : option Str * Allocator :=
  let (o, h') := request h in
  ((λ _, {| data := None; is_dynamic := true |}) <$> o, h').

Definition str_add (self : option Str) (_data : option (list Z)) (h : Allocator)
  : Z * option Str * Allocator :=
  match self, _data with
  | Some s, Some d =>
      let size := strlen d in
      match data s with
      | Some buf =>
          let size := size + strlen buf in
          match realloc buf (size + 1) h with
          | (Some p, h') => (0%Z, Some (set_data s (Some (strcat p d))), h')
          | (None, h') => ((- ENOMEM)%Z, self, h')
          end
      | None =>
          match malloc (size + 1) h with
          | (Some p, h') =>
              let p := strcpy p d in
              if decide (strlen p ≠ strlen d)
              then ((-1)%Z, Some (set_data s (Some p)), h')
              else (0%Z, Some (set_data s (Some p)), h')
          | (None, h') => ((-1)%Z, Some (set_data s None), h')
          end
      end
  | _, _ => ((- EINVAL)%Z, self, h)
  end.

Definition str_get_size (self : option Str) : nat :=
  match self with
  | Some s => match data s with Some d => strlen d | None => 0 end
  | None => 0
  end.

(** [str_get_data]: the buffer, or NULL.  (For a NULL handle the source
    reaches the end of the function without a [return]; the model says
    NULL.) *)
Definition str_get_data (self : option Str) : option (list Z) :=
  s ← self; data s.

Definition str_clear (self : option Str) : option Str :=
  (λ s, set_data s None) <$> self.

(** [str_free]: a heap handle is gone afterwards, a stack handle stays
    with its buffer released. *)
Definition str_free (self : option Str) : option Str :=
  match self with
  | Some s => if is_dynamic s then None else Some (set_data s None)
  | None => None
  end.

(** [str_is_empty].  (As in [str_get_data], a NULL handle reaches the end
    of the function without a [return]; the model says [true].) *)
Definition str_is_empty (self : option Str) : bool :=
  match self with
  | Some s => match data s with
              | None => true
              | Some d => bool_decide (strlen d = 0)
              end
  | None => true
  end.

(** ** Reading a line *)

(** The standard input: the bytes still to be read; [getchar] returns EOF
    on the empty list. *)
Definition Stdin := list Z.

Definition CHUNK_SIZE : Z := 10.

(** The [while] loop of [get_dyn_input], from the state [buffer],
    [current_size], [len] (the source's [length]).  It ends with the
    staging buffer and the count of bytes read, or with NULL. *)
Fixpoint get_dyn_input_loop (max_str_size : Z) (input : Stdin) (h : Allocator)
    (buffer : list Z) (current_size len : Z)
  : option (list Z * Z) * Stdin * Allocator :=
  match input with
  | [] => (Some (buffer, len), [], h)
  | c :: rest =>
      if (c =? 10)%Z then (Some (buffer, len), rest, h)
      else
        let grown :=
          if (current_size <=? size_t (len + 1))%Z then
            let current_size := size_t (current_size + CHUNK_SIZE) in
            match realloc buffer (Z.to_nat current_size) h with
            | (Some tmp, h') => (Some (tmp, current_size), h')
            | (None, h') => (None, h')
            end
          else (Some (buffer, current_size), h) in
        match grown with
        | (None, h') => (None, rest, h')
        | (Some (buffer, current_size), h') =>
            if (size_t (max_str_size - 1) <=? current_size)%Z then (None, rest, h')
            else
              let buffer := <[Z.to_nat len := c]> buffer in
              let len := size_t (len + 1) in
              let buffer := <[Z.to_nat len := 0%Z]> buffer in
              get_dyn_input_loop max_str_size rest h' buffer current_size len
        end
  end.

Definition get_dyn_input (max_str_size : Z) (input : Stdin) (h : Allocator)
  : option (list Z) * Stdin * Allocator :=
  match calloc (Z.to_nat CHUNK_SIZE) h with
  | (None, h') => (None, input, h')
  | (Some buffer, h') =>
      match get_dyn_input_loop max_str_size input h' buffer CHUNK_SIZE 0%Z with
      | (None, input', h'') => (None, input', h'')
      | (Some (buffer, len), input', h'') =>
          match malloc (Z.to_nat (size_t (len + 1))) h'' with
          | (None, h3) => (None, input', h3)
          | (Some result, h3) =>
              let result := strncpy result buffer (strlen buffer) in
              let result := <[strlen buffer := 0%Z]> result in
              (Some result, input', h3)
          end
      end
  end.

(** The line at the front of the input: the bytes before the first
    newline, or all of them when there is none. *)
Fixpoint line (input : Stdin) : list Z :=
  match input with
  | [] => []
  | c :: r => if (c =? 10)%Z then [] else c :: line r
  end.

(** What is left of the input once the line and its newline are read. *)
Fixpoint after_line (input : Stdin) : Stdin :=
  match input with
  | [] => []
  | c :: r => if (c =? 10)%Z then r else after_line r
  end.

(** The size of the staging buffer once [n] bytes are in it: 10 bytes,
    and 10 more each time the next byte and its terminator would not fit. *)
Definition capacity (n : nat) : Z := 10 * (Z.of_nat n / 10 + 1).

Definition str_input (self : option Str) (input : Stdin) (h : Allocator)
  : Z * option Str * Stdin * Allocator :=
  match self with
  | None => ((-1)%Z, None, input, h)
  | Some s =>
      match data s with
      | Some _ => ((-1)%Z, self, input, h)
      | None =>
          let '(r, input', h') := get_dyn_input MAX_STRING_SIZE input h in
          (match r with Some _ => 0%Z | None => (-1)%Z end, Some (set_data s r), input', h')
      end
  end.

Definition str_add_input (self : option Str) (input : Stdin) (h : Allocator)
  : Z * option Str * Stdin * Allocator :=
  match self with
  | None => ((-1)%Z, None, input, h)
  | Some s =>
      match data s with
      | None =>
          let '(r, input', h') := get_dyn_input MAX_STRING_SIZE input h in
          (match r with Some _ => 0%Z | None => (-2)%Z end, Some (set_data s r), input', h')
      | Some self_data_ptr =>
          let self_data_size := strlen self_data_ptr in
          match get_dyn_input (size_t (MAX_STRING_SIZE - Z.of_nat self_data_size))
                  input h with
          | (None, input', h') => ((-1)%Z, self, input', h')
          | (Some buf, input', h') =>
              match realloc self_data_ptr (self_data_size + strlen buf + 1) h' with
              | (None, h'') => ((-1)%Z, self, input', h'')
              | (Some new_data, h'') =>
                  (0%Z, Some (set_data s (Some (strncat new_data buf (strlen buf)))),
                   input', h'')
              end
          end
      end
  end.

(** ** Cutting and replacing *)

Definition str_pop_back (self : option Str) (sep : Z) (h : Allocator)
  : Z * option Str * Allocator :=
  match self with
  | None => ((-1)%Z, None, h)
  | Some s =>
      match data s with
      | None => ((-1)%Z, self, h)
      | Some d =>
          if decide (strlen d = 0) then ((-1)%Z, self, h)
          else
            match strrchr d sep with
            | None => ((- EINVAL)%Z, self, h)
            | Some p =>
                let p := S p in
                let d := <[p := 0%Z]> d in
                match realloc d (strlen d + 1) h with
                | (None, h') => ((-1)%Z, Some (set_data s (Some d)), h')
                | (Some self_data_ptr, h') =>
                    (0%Z, Some (set_data s (Some self_data_ptr)), h')
                end
            end
      end
  end.

Definition str_rem_word (self : option Str) (needle : option (list Z)) (h : Allocator)
  : Z * option Str * Allocator :=
  match self with
  | None => ((-1)%Z, None, h)
  | Some s =>
      match data s, needle with
      | Some d, Some needle =>
          let self_data_size := strlen d in
          let needle_size := strlen needle in
          if decide (self_data_size < needle_size) then ((- EINVAL)%Z, self, h)
          else
            match strstr d needle with
            | None => ((- EINVAL)%Z, self, h)
            | Some L =>
                let d := memmove d L (L + needle_size)
                           (self_data_size - L - needle_size + 1) in
                let d := <[self_data_size - needle_size := 0%Z]> d in
                match realloc d (self_data_size - needle_size + 1) h with
                | (None, h') => ((-1)%Z, Some (set_data s (Some d)), h')
                | (Some buf, h') => (0%Z, Some (set_data s (Some buf)), h')
                end
            end
      | _, _ => ((-1)%Z, self, h)
      end
  end.

Definition str_swap_word (self : option Str) (word1 word2 : option (list Z))
    (h : Allocator) : Z * option Str * Allocator :=
  match self with
  | None => ((-1)%Z, None, h)
  | Some s =>
      match data s, is_dynamic s, word1, word2 with
      | Some d, true, Some word1, Some word2 =>
          let self_data_size := strlen d in
          let word1_size := strlen word1 in
          let word2_size := strlen word2 in
          match strstr d word1 with
          | None => ((-1)%Z, self, h)
          | Some L =>
              let new_size := self_data_size - word1_size + word2_size in
              match malloc (new_size + 1) h with
              | (None, h') => ((-1)%Z, self, h')
              | (Some buf, h') =>
                  let buf := strncpy buf d L in
                  let buf := <[L := 0%Z]> buf in
                  let buf := strcat buf word2 in
                  let buf := strcat buf (drop (L + word1_size) d) in
                  (0%Z, Some (set_data s (Some buf)), h')
              end
          end
      | _, _, _, _ => ((-1)%Z, self, h)
      end
  end.

(** ** Case and order *)

(** [*p &= ~(1 << 5)] and [*p |= (1 << 5)]. *)
Definition clear_bit5 (c : Z) : Z := Z.land c (Z.lnot (Z.shiftl 1 5)).
Definition set_bit5 (c : Z) : Z := Z.lor c (Z.shiftl 1 5).

Definition is_lower (c : Z) : bool := (97 <=? c)%Z && (c <=? 122)%Z.
Definition is_upper (c : Z) : bool := (65 <=? c)%Z && (c <=? 90)%Z.

(** The loops that walk [p] up to the terminator, from the byte [p]
    points to. *)
Fixpoint to_upper_loop (p : list Z) : list Z :=
  match p with
  | [] => []
  | c :: r =>
      if (c =? 0)%Z then p
      else (if is_lower c then clear_bit5 c else c) :: to_upper_loop r
  end.

Fixpoint to_lower_loop (p : list Z) : list Z :=
  match p with
  | [] => []
  | c :: r =>
      if (c =? 0)%Z then p
      else (if is_upper c then set_bit5 c else c) :: to_lower_loop r
  end.

Fixpoint title_loop (flag : bool) (p : list Z) : list Z :=
  match p with
  | [] => []
  | c :: r =>
      if (c =? 0)%Z then p
      else if flag && is_lower c then clear_bit5 c :: title_loop false r
      else if (c =? 32)%Z then c :: title_loop true r
      else c :: title_loop flag r
  end.

Definition str_to_upper (self : option Str) : Z * option Str :=
  match self with
  | None => ((-1)%Z, None)
  | Some s =>
      match data s with
      | None => ((-1)%Z, self)
      | Some d => (0%Z, Some (set_data s (Some (to_upper_loop d))))
      end
  end.

Definition str_to_lower (self : option Str) : Z * option Str :=
  match self with
  | None => ((-1)%Z, None)
  | Some s =>
      match data s with
      | None => ((-1)%Z, self)
      | Some d => (0%Z, Some (set_data s (Some (to_lower_loop d))))
      end
  end.

Definition str_to_title_case (self : option Str) : Z * option Str :=
  match self with
  | None => ((-1)%Z, None)
  | Some s =>
      match data s with
      | None => ((-1)%Z, self)
      | Some d =>
          if decide (strlen d = 0) then ((-1)%Z, self)
          else (0%Z, Some (set_data s (Some (title_loop true d))))
      end
  end.

(** The [while (head < tail)] loop of [str_reverse].  Each turn moves the
    two indices one step towards each other, so [n] turns are enough as
    soon as [tail - head < 2 * n]. *)
Fixpoint reverse_loop (n : nat) (d : list Z) (head tail : nat) : list Z :=
  match n with
  | 0 => d
  | S n =>
      if decide (head < tail) then
        let buf := default 0%Z (d !! head) in
        let d := <[head := default 0%Z (d !! tail)]> d in
        let d := <[tail := buf]> d in
        reverse_loop n d (S head) (pred tail)
      else d
  end.

Definition str_reverse (self : option Str) : Z * option Str :=
  match self with
  | None => ((-1)%Z, None)
  | Some s =>
      match data s with
      | None => ((-1)%Z, self)
      | Some d =>
          if decide (strlen d = 0) then ((-1)%Z, self)
          else
            let tail := strlen d - 1 in
            (0%Z, Some (set_data s (Some (reverse_loop (strlen d) d 0 tail))))
      end
  end.

(** ** One call on a handle

    The operations of the library that report a status, as one type, so
    that a statement can range over all of them. *)
Inductive call :=
| Add (_data : option (list Z))
| Input
| AddInput
| PopBack (sep : Z)
| RemWord (needle : option (list Z))
| SwapWord (word1 word2 : option (list Z))
| ToUpper
| ToLower
| ToTitleCase
| Reverse.

Definition run (c : call) (self : option Str) (input : Stdin) (h : Allocator)
  : Z * option Str * Stdin * Allocator :=
  match c with
  | Add d => let '(r, s, h') := str_add self d h in (r, s, input, h')
  | Input => str_input self input h
  | AddInput => str_add_input self input h
  | PopBack sep => let '(r, s, h') := str_pop_back self sep h in (r, s, input, h')
  | RemWord n => let '(r, s, h') := str_rem_word self n h in (r, s, input, h')
  | SwapWord w1 w2 =>
      let '(r, s, h') := str_swap_word self w1 w2 h in (r, s, input, h')
  | ToUpper => let '(r, s) := str_to_upper self in (r, s, input, h)
  | ToLower => let '(r, s) := str_to_lower self in (r, s, input, h)
  | ToTitleCase => let '(r, s) := str_to_title_case self in (r, s, input, h)
  | Reverse => let '(r, s) := str_reverse self in (r, s, input, h)
  end.

(** The calls that fill a handle, as opposed to those that work on what
    it holds. *)
Definition fills (c : call) : bool :=
  match c with
  | Add _ | Input | AddInput => true
  | _ => false
  end.

(** ** The registry *)

Module Registry.

(** Addresses of nodes and of handles; a pointer is an address or NULL. *)
Definition loc := positive.

(** [struct Pointer_counter] (its mutex left out). *)
Record Pointer_counter := mkNode {
  str_ptr : option loc;
  next : option loc;
  counter : Z
}.

(** The live nodes, and the caller's variable [*head]. *)
Record state := mkState {
  nodes : gmap loc Pointer_counter;
  head : option loc
}.

(** How a call ends: with a returned value; at the closing brace of a
    non-void function, where the caller reads an indeterminate value; or
    outside the language (a freed node is read, or the walk never ends). *)
Inductive outcome :=
| Returns (r : Z) (st : state)
| FallsOff (st : state)
| Undefined.

(** [pointer_counter_create].  [pc] and [st] are what the two [calloc]s
    return, [mutex_ok] whether [pthread_mutex_init] returns 0. *)
Definition pointer_counter_create (pc st : option loc) (mutex_ok : bool)
    (m : gmap loc Pointer_counter) : option loc * gmap loc Pointer_counter :=
  match pc with
  | None => (None, m)
  | Some a =>
      match st with
      | None => (None, m)
      | Some _ =>
          if mutex_ok
          then (Some a, <[a := {| str_ptr := st; next := None; counter := 0 |}]> m)
          else (None, m)
      end
  end.

(** The [while (head_ptr->next)] walk.  A chain of live nodes without a
    cycle has at most [size m] nodes, so that many steps reach its end. *)
Fixpoint last_node (fuel : nat) (m : gmap loc Pointer_counter) (head_ptr : loc)
  : option loc :=
  match fuel with
  | 0 => None
  | S fuel =>
      match m !! head_ptr with
      | None => None
      | Some nd =>
          match next nd with
          | None => Some head_ptr
          | Some n => last_node fuel m n
          end
      end
  end.

Definition pointer_counter_add (s : state) (_str_ptr : option loc)
    (pc st : option loc) (mutex_ok : bool) : outcome :=
  match _str_ptr with
  | None => Returns (-1) s
  | Some _ =>
      match pointer_counter_create pc st mutex_ok (nodes s) with
      | (None, _) => Returns (-1) s
      | (Some pc_ptr, m) =>
          let fill nd := {| str_ptr := _str_ptr; next := None;
                            counter := size_t (counter nd + 1) |} in
          match head s with
          | None =>
              Returns 0 {| nodes := alter fill pc_ptr m; head := Some pc_ptr |}
          | Some hd =>
              match last_node (size m) m hd with
              | None => Undefined
              | Some tl =>
                  let link nd := {| str_ptr := str_ptr nd; next := Some pc_ptr;
                                    counter := counter nd |} in
                  Returns 0 {| nodes := alter fill pc_ptr (alter link tl m);
                               head := head s |}
              end
          end
      end
  end.

(** The [for] loop of [pointer_counter_free]; [n] turns are left. *)
Fixpoint free_scan (n : nat) (s : state) (_str_ptr : option loc)
    (pc_iter pc_iter_back : option loc) : outcome :=
  match n with
  | 0 => FallsOff s
  | S n =>
      match pc_iter with
      | None => Returns (-1) s
      | Some it =>
          match nodes s !! it, pc_iter_back with
          | Some nd, Some back =>
              if decide (str_ptr nd = _str_ptr) then
                let unlink b := {| str_ptr := str_ptr b; next := next nd;
                                   counter := counter b |} in
                Returns 0 {| nodes := delete it (alter unlink back (nodes s));
                             head := head s |}
              else
                match nodes s !! back with
                | Some b => free_scan n s _str_ptr (next nd) (next b)
                | None => Undefined
                end
          | _, _ => Undefined
          end
      end
  end.

Definition pointer_counter_free (s : state) (_str_ptr : option loc) : outcome :=
  match head s, _str_ptr with
  | Some hd, Some _ =>
      match nodes s !! hd with
      | None => Undefined
      | Some hn =>
          if decide (str_ptr hn = _str_ptr) then
            Returns 0 {| nodes := delete hd (nodes s); head := head s |}
          else free_scan (Z.to_nat (counter hn)) s _str_ptr (next hn) (Some hd)
      end
  | _, _ => Returns (-1) s
  end.

(** The handles the registry holds, in list order from [*head]; [None]
    when the walk meets a freed node or does not end within [fuel]. *)
Fixpoint handles_from (fuel : nat) (m : gmap loc Pointer_counter) (p : option loc)
  : option (list (option loc)) :=
  match p with
  | None => Some []
  | Some a =>
      match fuel with
      | 0 => None
      | S fuel =>
          nd ← m !! a;
          (λ l, str_ptr nd :: l) <$> handles_from fuel m (next nd)
      end
  end.

Definition handles (s : state) : option (list (option loc)) :=
  handles_from (S (size (nodes s))) (nodes s) (head s).

(** [linked m p addrs]: from the pointer [p] on, the nodes at [addrs] are
    live in [m] and follow one another through [next]; the last one has
    no successor. *)
Fixpoint linked (m : gmap loc Pointer_counter) (p : option loc) (addrs : list loc)
  : Prop :=
  match addrs with
  | [] => p = None
  | a :: rest => p = Some a ∧ ∃ nd, m !! a = Some nd ∧ linked m (next nd) rest
  end.

(** A registry as [pointer_counter_add] builds it: a list of live nodes
    from [*head], each with the counter 1. *)
Definition chain (s : state) (addrs : list loc) : Prop :=
  linked (nodes s) (head s) addrs
  ∧ ∀ a nd, a ∈ addrs → nodes s !! a = Some nd → counter nd = 1%Z.

(** The handle the node at [a] refers to. *)
Definition handle_at (m : gmap loc Pointer_counter) (a : loc) : option loc :=
  nd ← m !! a; str_ptr nd.

(** Two registries to evaluate on.  [two_nodes]: handles 10 and 20 added
    to an empty registry, their nodes at addresses 1 and 2.  [three_nodes]:
    handle 30 added after them, its node at address 3. *)
Definition two_nodes : state :=
  {| nodes := <[1%positive := {| str_ptr := Some 10%positive;
                                 next := Some 2%positive; counter := 1 |}]>
              (<[2%positive := {| str_ptr := Some 20%positive;
                                  next := None; counter := 1 |}]> ∅);
     head := Some 1%positive |}.

Definition three_nodes : state :=
  {| nodes := <[1%positive := {| str_ptr := Some 10%positive;
                                 next := Some 2%positive; counter := 1 |}]>
              (<[2%positive := {| str_ptr := Some 20%positive;
                                  next := Some 3%positive; counter := 1 |}]>
              (<[3%positive := {| str_ptr := Some 30%positive;
                                  next := None; counter := 1 |}]> ∅));
     head := Some 1%positive |}.

End Registry.

(** ** Output *)

(** The standard output: the bytes written so far. *)
Definition Stdout := list Z.

(** [str_print]: [printf("%s", ...)] writes the string of the buffer. *)
Definition str_print (self : option Str) (out : Stdout) : Stdout :=
  match self with
  | Some s => match data s with
              | Some d => out ++ cstr d
              | None => out
              end
  | None => out
  end.

(** ** Vocabulary of the statements *)

(** The upper-case and lower-case counterpart of a byte: ASCII letters
    move by 32, every other byte stays. *)
Definition upper (c : Z) : Z := if is_lower c then (c - 32)%Z else c.
Definition lower (c : Z) : Z := if is_upper c then (c + 32)%Z else c.

(** [armed flag p i]: the flag of [str_to_title_case] is up when its
    loop, entered at the start of [p] with [flag], reaches offset [i]:
    every lower-case letter before [i] is followed by a space before [i],
    and if the loop was entered with the flag down there is a space
    before [i].  With [flag = true] this says that no lower-case letter
    lies between [i] and the last space before it (or the start). *)
Definition armed (flag : bool) (p : list Z) (i : nat) : Prop :=
  (flag = false → ∃ k, k < i ∧ p !! k = Some 32%Z)
  ∧ ∀ j c, j < i → p !! j = Some c → is_lower c = true →
           ∃ k, j < k < i ∧ p !! k = Some 32%Z.

(** The buffer of a handle is exactly sized: a text and its terminator,
    nothing behind it. *)
Definition exact (self : option Str) : Prop :=
  ∀ s d, self = Some s → data s = Some d → ∃ c, text c ∧ d = c ++ [0%Z].

(** * Properties *)

(** ** Blocks and strings *)

Section blocks.
Implicit Types (s b c r pre post : list Z) (x v : Z).

Lemma text_app c1 c2 : text (c1 ++ c2) ↔ text c1 ∧ text c2.
Proof. apply Forall_app. Qed.

Lemma strlen_le s : strlen s ≤ length s.
Proof.
  induction s as [|x s IH]; simpl; [lia|].
  destruct (x =? 0)%Z; simpl; lia.
Qed.

Lemma length_cstr s : length (cstr s) = strlen s.
Proof. unfold cstr. rewrite length_take. pose proof (strlen_le s). lia. Qed.

Lemma cstr_text s : text (cstr s).
Proof.
  unfold cstr, text. induction s as [|x s IH]; simpl; [constructor|].
  destruct (Z.eqb_spec x 0); simpl; [constructor|].
  constructor; [done|apply IH].
Qed.

Lemma strlen_text_app c r : text c → strlen (c ++ r) = length c + strlen r.
Proof.
  induction 1 as [|x c Hx _ IH]; simpl; [done|].
  destruct (Z.eqb_spec x 0); [done|]. by rewrite IH.
Qed.

Lemma strlen_text c : text c → strlen c = length c.
Proof.
  intros H. rewrite <- (app_nil_r c) at 1.
  rewrite strlen_text_app by done. simpl. lia.
Qed.

Lemma strlen_string c r : text c → strlen (c ++ 0%Z :: r) = length c.
Proof. intros H. rewrite strlen_text_app by done. simpl. lia. Qed.

Lemma cstr_string c r : text c → cstr (c ++ 0%Z :: r) = c.
Proof.
  intros H. unfold cstr. rewrite strlen_string by done.
  by rewrite take_app_length.
Qed.

Lemma cstr_of_text c : text c → cstr c = c.
Proof.
  intros H. unfold cstr. rewrite strlen_text by done.
  by rewrite firstn_all.
Qed.

Lemma terminated_lookup s : terminated s → s !! strlen s = Some 0%Z.
Proof.
  unfold terminated. induction s as [|x s IH]; simpl; [lia|].
  destruct (Z.eqb_spec x 0); simpl; [by intros _; subst|].
  intros H. apply IH. lia.
Qed.

Lemma terminated_split s :
  terminated s → s = cstr s ++ 0%Z :: drop (S (strlen s)) s.
Proof.
  intros H. unfold cstr.
  by rewrite (take_drop_middle s (strlen s) 0%Z) by by apply terminated_lookup.
Qed.

Lemma terminated_inv s : terminated s → ∃ c r, s = c ++ 0%Z :: r ∧ text c.
Proof.
  intros H. exists (cstr s), (drop (S (strlen s)) s).
  split; [by apply terminated_split|apply cstr_text].
Qed.

Lemma string_terminated c r : text c → terminated (c ++ 0%Z :: r).
Proof.
  intros H. unfold terminated. rewrite strlen_string by done.
  rewrite length_app. simpl. lia.
Qed.

Lemma store_middle pre x v post :
  <[length pre := v]> (pre ++ x :: post) = pre ++ v :: post.
Proof. induction pre as [|y pre IH]; simpl; [done|]. by rewrite IH. Qed.

(** [poke] overwrites a run of the block of the same length. *)
Lemma poke_middle pre old post vs :
  length old = length vs →
  poke (pre ++ old ++ post) (length pre) vs = pre ++ vs ++ post.
Proof.
  revert pre old. induction vs as [|v vs IH]; intros pre old Hlen.
  - by destruct old.
  - destruct old as [|o old]; [done|]. simpl in *.
    replace (length pre) with (length pre + 0) at 1 by lia.
    rewrite insert_app_r. simpl.
    replace (S (length pre)) with (length (pre ++ [v]))
      by (rewrite length_app; simpl; lia).
    rewrite (cons_middle v pre), app_assoc.
    rewrite (IH (pre ++ [v]) old) by lia.
    by rewrite <- app_assoc.
Qed.

Lemma poke_front old post vs :
  length old = length vs → poke (old ++ post) 0 vs = vs ++ post.
Proof. intros H. by apply (poke_middle [] old post vs). Qed.

Lemma poke_all old vs : length old = length vs → poke old 0 vs = vs.
Proof.
  intros H. rewrite <- (app_nil_r old).
  rewrite poke_front by done. by rewrite app_nil_r.
Qed.

(** Writing back what is there changes nothing, in range or not. *)
Lemma poke_same b i n : poke b i (take n (drop i b)) = b.
Proof.
  revert b i. induction n as [|n IH]; intros b i; [done|].
  destruct (drop i b) as [|x t] eqn:E; [done|]. simpl.
  assert (b !! i = Some x) as Hx.
  { rewrite <- (Nat.add_0_r i), <- lookup_drop, E. done. }
  rewrite list_insert_id by done.
  assert (t = drop (S i) b) as ->.
  { rewrite <- (Nat.add_1_r i), <- drop_drop, E. done. }
  apply IH.
Qed.

End blocks.

(** ** The allocator *)

Section allocator.
Implicit Types (h : Allocator) (b : list Z) (j : Z).

Lemma request_cases h :
  (∃ j h', request h = (Some j, h')) ∨ (∃ h', request h = (None, h') ∧ h = None :: h').
Proof. destruct h as [|[j|] h']; simpl; eauto. Qed.

Lemma malloc_granted n h j h' :
  request h = (Some j, h') → malloc n h = (Some (replicate n j), h').
Proof. unfold malloc. by intros ->. Qed.

Lemma calloc_granted n h j h' :
  request h = (Some j, h') → calloc n h = (Some (replicate n 0%Z), h').
Proof. unfold calloc. by intros ->. Qed.

Lemma realloc_granted b n h j h' :
  request h = (Some j, h') → realloc b n h = (Some (resize n j b), h').
Proof. unfold realloc. by intros ->. Qed.

Lemma malloc_refused n h h' : request h = (None, h') → malloc n h = (None, h').
Proof. unfold malloc. by intros ->. Qed.

Lemma realloc_refused b n h h' :
  request h = (None, h') → realloc b n h = (None, h').
Proof. unfold realloc. by intros ->. Qed.

(** A refused request is not a granted one. *)
Lemma refused_not_granted h' : ¬ granted (None :: h') h'.
Proof.
  intros [js Hjs]. destruct js as [|j js]; simpl in Hjs.
  - apply (f_equal length) in Hjs. simpl in Hjs. lia.
  - discriminate.
Qed.

(** Growing or trimming a block that holds a string keeps the string
    when the new size leaves room for its terminator. *)
Lemma resize_string c r n j :
  resize (length c + 1 + n) j (c ++ 0%Z :: r) = c ++ 0%Z :: resize n j r.
Proof.
  induction c as [|x c IH]; simpl; [done|]. by rewrite IH.
Qed.

Lemma resize_exact c r j :
  resize (length c + 1) j (c ++ 0%Z :: r) = c ++ [0%Z].
Proof.
  replace (length c + 1) with (length c + 1 + 0) by lia.
  rewrite resize_string. by rewrite resize_0.
Qed.

End allocator.

(** ** Appending *)

Section append.
Implicit Types (s : Str) (d buf : list Z) (h : Allocator).

Lemma strcpy_fresh d j :
  strcpy (replicate (strlen d + 1) j) d = cstr d ++ [0%Z].
Proof.
  unfold strcpy. apply poke_all.
  rewrite length_replicate, length_app, length_cstr. done.
Qed.

(** [strcat] onto a string that has room behind its terminator. *)
Lemma strcat_room c r post d :
  text c → length r = strlen d →
  strcat (c ++ 0%Z :: r ++ post) d = c ++ cstr d ++ 0%Z :: post.
Proof.
  intros Hc Hr. unfold strcat. rewrite strlen_string by done.
  rewrite (app_comm_cons r post 0%Z).
  rewrite poke_middle; [by rewrite <- app_assoc|].
  rewrite length_app, length_cstr. simpl. lia.
Qed.

Lemma strcat_string c r d :
  text c → length r = strlen d →
  strcat (c ++ 0%Z :: r) d = c ++ cstr d ++ [0%Z].
Proof.
  intros Hc Hr. rewrite <- (app_nil_r r). by apply strcat_room.
Qed.

(** The first [str_add] on an empty handle: an exactly sized copy. *)
Lemma str_add_empty s d h j h' :
  data s = None → request h = (Some j, h') →
  str_add (Some s) (Some d) h = (0%Z, Some (set_data s (Some (cstr d ++ [0%Z]))), h').
Proof.
  intros Hs Hreq. unfold str_add. rewrite Hs.
  rewrite (malloc_granted _ _ _ _ Hreq). cbv zeta.
  rewrite strcpy_fresh.
  rewrite strlen_string by apply cstr_text. rewrite length_cstr.
  by destruct (decide (strlen d ≠ strlen d)).
Qed.

(** [str_add] on a handle that holds a string: the buffer is regrown to
    the exact size and the argument copied behind the old content. *)
Lemma str_add_more s buf d h j h' :
  data s = Some buf → terminated buf → request h = (Some j, h') →
  str_add (Some s) (Some d) h
  = (0%Z, Some (set_data s (Some (cstr buf ++ cstr d ++ [0%Z]))), h').
Proof.
  intros Hs (c & r & -> & Hc)%terminated_inv Hreq. unfold str_add. rewrite Hs.
  rewrite (realloc_granted _ _ _ _ _ Hreq).
  rewrite cstr_string, strlen_string by done.
  replace (strlen d + length c + 1) with (length c + 1 + strlen d) by lia.
  rewrite resize_string.
  rewrite strcat_string; [done|done|apply length_resize].
Qed.

(** A refused request makes [str_add] fail and leaves the handle as it
    was. *)
Lemma str_add_status self _data h r self' h' :
  str_add self _data h = (r, self', h') →
  r ≠ 0%Z → self' = self.
Proof.
  unfold str_add. destruct self as [s|]; [|by intros [= <- <- <-]].
  destruct _data as [d|]; [|by intros [= <- <- <-]].
  destruct (data s) as [buf|] eqn:Hs.
  - destruct (request_cases h) as [(j & h1 & Hreq)|(h1 & Hreq & _)].
    + rewrite (realloc_granted _ _ _ _ _ Hreq). by intros [= <- <- <-].
    + rewrite (realloc_refused _ _ _ _ Hreq). by intros [= <- <- <-].
  - destruct (request_cases h) as [(j & h1 & Hreq)|(h1 & Hreq & _)].
    + rewrite (malloc_granted _ _ _ _ Hreq). cbv zeta.
      rewrite strcpy_fresh, strlen_string by apply cstr_text.
      rewrite length_cstr.
      destruct (decide (strlen d ≠ strlen d)); [done|]. by intros [= <- <- <-].
    + rewrite (malloc_refused _ _ _ Hreq). intros [= <- <- <-] _.
      destruct s; simpl in *; by subst.
Qed.

End append.

(** C6: on a handle fresh from [str_init], [str_add] of the string [a]
    then [str_add] of the string [b], both returning 0, leave the content
    [a ++ b], and [str_get_size] returns [length a + length b]. *)
Theorem append_twice (a b : list Z) (h0 h1 h2 h3 : Allocator) (s0 : Str)
    (s1 s2 : option Str) :
  text a → text b →
  str_init h0 = (Some s0, h1) →
  str_add (Some s0) (Some (a ++ [0%Z])) h1 = (0%Z, s1, h2) →
  str_add s1 (Some (b ++ [0%Z])) h2 = (0%Z, s2, h3) →
  content s2 = Some (a ++ b) ∧ str_get_size s2 = length a + length b.
Proof.
  intros Ha Hb Hinit H1 H2.
  assert (data s0 = None) as Hs0.
  { unfold str_init in Hinit. destruct (request h0) as [[j|] ?]; by simplify_eq/=. }
  destruct (request_cases h1) as [(j1 & k1 & Hreq1)|(k1 & Hreq1 & _)]; last first.
  { unfold str_add in H1. rewrite Hs0, (malloc_refused _ _ _ Hreq1) in H1.
    discriminate. }
  rewrite (str_add_empty _ _ _ _ _ Hs0 Hreq1) in H1.
  rewrite cstr_string in H1 by done. injection H1 as <- ->.
  destruct (request_cases h2) as [(j2 & k2 & Hreq2)|(k2 & Hreq2 & _)]; last first.
  { unfold str_add in H2. simpl in H2.
    rewrite (realloc_refused _ _ _ _ Hreq2) in H2. discriminate. }
  rewrite (str_add_more (set_data s0 (Some (a ++ [0%Z]))) (a ++ [0%Z]) _ _ _ _
             eq_refl (string_terminated _ _ Ha) Hreq2) in H2.
  rewrite !cstr_string in H2 by done. injection H2 as <- <-.
  unfold content, str_get_size. simpl.
  rewrite app_assoc.
  rewrite cstr_string, strlen_string by (apply text_app; done).
  by rewrite length_app.
Qed.

Lemma append_twice_witness :
  content (str_add (str_add (str_init []).1 (Some (lit "foo")) []).1.2
             (Some (lit "bar")) []).1.2 = Some (bytes "foobar")
  ∧ str_get_size (str_add (str_add (str_init []).1 (Some (lit "foo")) []).1.2
                    (Some (lit "bar")) []).1.2 = 6.
Proof.
  apply (append_twice (bytes "foo") (bytes "bar") [] [] [] []
           {| data := None; is_dynamic := true |}
           (Some {| data := Some (lit "foo"); is_dynamic := true |})
           (Some {| data := Some (lit "foobar"); is_dynamic := true |})).
  - unfold text. repeat constructor; done.
  - unfold text. repeat constructor; done.
  - reflexivity.
  - reflexivity.
  - reflexivity.
Defined.

(** ** Reversal *)

Section reversal.
Implicit Types (s : Str) (d pre mid post : list Z).

(** The loop, started on the two ends of [mid], reverses [mid] and leaves
    what is around it alone. *)
Lemma reverse_loop_middle n : ∀ pre mid post,
  length mid ≤ 2 * n + 1 →
  reverse_loop n (pre ++ mid ++ post) (length pre) (length pre + length mid - 1)
  = pre ++ reverse mid ++ post.
Proof.
  induction n as [|n IH]; intros pre mid post Hlen.
  - destruct mid as [|x [|y mid]]; simpl in *; [done|done|lia].
  - destruct mid as [|x mid]; [simpl; rewrite decide_False by lia; done|].
    destruct (decide (mid = [])) as [->|Hne].
    { simpl. rewrite decide_False by lia. done. }
    destruct (exists_last Hne) as (m & y & ->).
    rewrite reverse_cons, reverse_snoc.
    assert (length pre + length (x :: m ++ [y]) - 1 = length (pre ++ x :: m))
      as -> by (simpl; rewrite !length_app; simpl; lia).
    assert (pre ++ (x :: m ++ [y]) ++ post = pre ++ x :: m ++ y :: post) as ->
      by (simpl; by rewrite <- app_assoc).
    cbn [reverse_loop].
    rewrite decide_True by (rewrite length_app; simpl; lia).
    assert ((pre ++ x :: m ++ y :: post) !! length pre = Some x) as ->
      by by rewrite list_lookup_middle.
    assert ((pre ++ x :: m ++ y :: post) !! length (pre ++ x :: m) = Some y) as ->.
    { rewrite (app_assoc pre (x :: m) (y :: post)) at 1.
      by rewrite list_lookup_middle. }
    simpl default.
    assert (<[length (pre ++ x :: m) := x]>
              (<[length pre := y]> (pre ++ x :: m ++ y :: post))
            = (pre ++ [y]) ++ m ++ ([x] ++ post)) as ->.
    { rewrite store_middle.
      replace (pre ++ y :: m ++ y :: post) with ((pre ++ y :: m) ++ y :: post)
        by by rewrite <- app_assoc.
      replace (length (pre ++ x :: m)) with (length (pre ++ y :: m))
        by (rewrite !length_app; done).
      rewrite store_middle. by rewrite <- !app_assoc. }
    replace (S (length pre)) with (length (pre ++ [y]))
      by (rewrite length_app; simpl; lia).
    replace (pred (length (pre ++ x :: m))) with (length (pre ++ [y]) + length m - 1)
      by (rewrite !length_app; simpl; lia).
    rewrite IH.
    + by rewrite <- !app_assoc.
    + simpl in Hlen. rewrite length_app in Hlen. simpl in Hlen. lia.
Qed.

(** More turns than needed change nothing: the loop has stopped by its
    own test. *)
Lemma reverse_loop_enough n d :
  strlen d ≤ 2 * n + 1 →
  reverse_loop n d 0 (strlen d - 1) = reverse (cstr d) ++ drop (strlen d) d.
Proof.
  intros Hn.
  pose proof (reverse_loop_middle n [] (cstr d) (drop (strlen d) d)) as H.
  rewrite length_cstr in H. simpl in H.
  unfold cstr in H at 1. rewrite take_drop in H. by apply H.
Qed.

Lemma strlen_drop d : strlen (drop (strlen d) d) = 0.
Proof.
  induction d as [|x d IH]; simpl; [done|].
  destruct (Z.eqb_spec x 0); simpl; [|done].
  by destruct (Z.eqb_spec x 0).
Qed.

Lemma strlen_reversed d :
  strlen (reverse (cstr d) ++ drop (strlen d) d) = strlen d.
Proof.
  rewrite strlen_text_app by (apply Forall_reverse, cstr_text).
  rewrite length_reverse, length_cstr, strlen_drop. lia.
Qed.

Lemma str_reverse_ok s d :
  data s = Some d → strlen d ≠ 0 →
  str_reverse (Some s)
  = (0%Z, Some (set_data s (Some (reverse (cstr d) ++ drop (strlen d) d)))).
Proof.
  intros Hs Hne. unfold str_reverse. rewrite Hs.
  rewrite decide_False by done. cbv zeta.
  rewrite reverse_loop_enough by lia. done.
Qed.

End reversal.

(** C9: on a handle with non-empty content [str_reverse] succeeds; the
    byte at position [i] of the content goes to position
    [strlen d - 1 - i], the terminator and what lies behind it stay, and a
    second [str_reverse] gives back the handle as it was. *)
Theorem reverse_involution (s : Str) (d : list Z) :
  data s = Some d → strlen d ≠ 0 →
  ∃ d', str_reverse (Some s) = (0%Z, Some (set_data s (Some d')))
    ∧ (∀ i, i < strlen d → d' !! (strlen d - 1 - i) = d !! i)
    ∧ drop (strlen d) d' = drop (strlen d) d
    ∧ cstr d' = reverse (cstr d)
    ∧ str_reverse (Some (set_data s (Some d'))) = (0%Z, Some s).
Proof.
  intros Hs Hne. exists (reverse (cstr d) ++ drop (strlen d) d).
  split; [by apply str_reverse_ok|].
  assert (length (reverse (cstr d)) = strlen d) as Hlen
    by by rewrite length_reverse, length_cstr.
  split; [|split; [|split]].
  - intros i Hi. rewrite lookup_app_l by lia.
    rewrite reverse_lookup by (rewrite length_cstr; lia).
    rewrite length_cstr. unfold cstr. rewrite lookup_take_lt by lia.
    f_equal. lia.
  - by rewrite drop_app_length'.
  - unfold cstr at 1. rewrite strlen_reversed. by rewrite take_app_length'.
  - rewrite (str_reverse_ok _ (reverse (cstr d) ++ drop (strlen d) d))
      by (rewrite ?strlen_reversed; done).
    rewrite strlen_reversed.
    assert (cstr (reverse (cstr d) ++ drop (strlen d) d) = reverse (cstr d)) as ->
      by (unfold cstr at 1; rewrite strlen_reversed; by rewrite take_app_length').
    rewrite reverse_involutive. unfold cstr.
    rewrite drop_app_length' by done. rewrite take_drop.
    destruct s; simpl in *; by subst.
Qed.

Lemma reverse_involution_witness :
  ∃ d', str_reverse (Some {| data := Some (lit "olleH"); is_dynamic := true |})
        = (0%Z, Some (set_data {| data := Some (lit "olleH"); is_dynamic := true |}
                        (Some d')))
    ∧ (∀ i, i < strlen (lit "olleH")
            → d' !! (strlen (lit "olleH") - 1 - i) = lit "olleH" !! i)
    ∧ drop (strlen (lit "olleH")) d' = drop (strlen (lit "olleH")) (lit "olleH")
    ∧ cstr d' = reverse (cstr (lit "olleH"))
    ∧ str_reverse (Some (set_data {| data := Some (lit "olleH"); is_dynamic := true |}
                           (Some d')))
      = (0%Z, Some {| data := Some (lit "olleH"); is_dynamic := true |}).
Proof.
  apply (reverse_involution {| data := Some (lit "olleH"); is_dynamic := true |}
           (lit "olleH")).
  - reflexivity.
  - vm_compute. lia.
Defined.

(** ** Searching *)

Section searching.
Implicit Types (n hay pre suf : list Z).

Lemma starts_with_app n suf : starts_with n (n ++ suf) = true.
Proof.
  induction n as [|x n IH]; simpl; [done|].
  by rewrite Z.eqb_refl, IH.
Qed.

Lemma starts_with_inv n hay : starts_with n hay = true → ∃ suf, hay = n ++ suf.
Proof.
  revert hay. induction n as [|x n IH]; intros hay; simpl; [by eexists|].
  destruct hay as [|y hay]; [done|].
  intros [->%Z.eqb_eq (suf & ->)%IH]%andb_prop. by exists suf.
Qed.

Lemma find_from_here n hay : starts_with n hay = true → find_from n hay = Some 0.
Proof. intros H. destruct hay; simpl; by rewrite H. Qed.

(** [find_from] returns the offset of the first occurrence. *)
Lemma find_from_first n hay pre suf :
  hay = pre ++ n ++ suf →
  (∀ pre' suf', hay = pre' ++ n ++ suf' → length pre ≤ length pre') →
  find_from n hay = Some (length pre).
Proof.
  revert hay. induction pre as [|x pre IH]; intros hay -> Hmin.
  - change ([] ++ n ++ suf) with (n ++ suf). apply find_from_here, starts_with_app.
  - cbn [app find_from].
    destruct (starts_with n (x :: pre ++ n ++ suf)) eqn:E.
    + apply starts_with_inv in E as (suf' & E).
      specialize (Hmin [] suf' E). simpl in Hmin. lia.
    + rewrite (IH (pre ++ n ++ suf)); [done|done|].
      intros pre' suf' E'. specialize (Hmin (x :: pre') suf').
      simpl in Hmin. rewrite E' in Hmin. specialize (Hmin eq_refl). lia.
Qed.

Lemma find_from_none n hay :
  (∀ pre suf, hay ≠ pre ++ n ++ suf) → find_from n hay = None.
Proof.
  induction hay as [|x hay IH]; intros Hno.
  - destruct n; [by destruct (Hno [] [])|done].
  - cbn [find_from].
    destruct (starts_with n (x :: hay)) eqn:E.
    + apply starts_with_inv in E as (suf' & E). by destruct (Hno [] suf').
    + rewrite IH; [done|]. intros pre suf ->. by destruct (Hno (x :: pre) suf).
Qed.

Lemma find_from_found n hay k :
  find_from n hay = Some k → ∃ suf, hay = take k hay ++ n ++ suf.
Proof.
  revert k. induction hay as [|x hay IH]; intros k.
  - destruct n; simpl; [|done]. intros [= <-]. by exists [].
  - cbn [find_from]. destruct (starts_with n (x :: hay)) eqn:E.
    + intros [= <-]. by apply starts_with_inv in E.
    + destruct (find_from n hay) as [k'|] eqn:F; [|done].
      intros [= <-]. destruct (IH k' eq_refl) as (suf & Hs).
      exists suf. simpl. by rewrite <- Hs.
Qed.

(** [strrchr] finds nothing when the byte is neither in the string nor
    the terminator. *)
Lemma strrchr_none d sep :
  sep ≠ 0%Z → sep ∉ cstr d → strrchr d sep = None.
Proof.
  intros Hsep. unfold cstr. induction d as [|x d IH]; simpl; [done|].
  destruct (Z.eqb_spec x 0).
  - by destruct (Z.eqb_spec sep 0).
  - simpl. intros Hin. rewrite IH by (intros ?; apply Hin; by right).
    destruct (Z.eqb_spec x sep); [|done].
    destruct Hin. subst. by left.
Qed.

(** What follows the string in its block has length zero as a string. *)
Lemma cstr_with_tail c r : text c → strlen r = 0 → cstr (c ++ r) = c.
Proof.
  intros Hc Hr. unfold cstr. rewrite strlen_text_app, Hr by done.
  by rewrite Nat.add_0_r, take_app_length.
Qed.

End searching.

(** ** Replacing the first occurrence *)

Section replacing.
Implicit Types (s : Str) (d pre suf : list Z) (h : Allocator).

Lemma str_swap_word_ok s d (word1 word2 : list Z) pre suf h j h' :
  data s = Some d → is_dynamic s = true →
  cstr d = pre ++ cstr word1 ++ suf →
  (∀ pre' suf', cstr d = pre' ++ cstr word1 ++ suf' → length pre ≤ length pre') →
  request h = (Some j, h') →
  str_swap_word (Some s) (Some word1) (Some word2) h
  = (0%Z, Some (set_data s (Some (pre ++ cstr word2 ++ suf ++ [0%Z]))), h').
Proof.
  intros Hs Hdyn Hocc Hmin Hreq. unfold str_swap_word. rewrite Hs, Hdyn.
  unfold strstr. rewrite (find_from_first _ _ pre suf Hocc Hmin).
  rewrite (malloc_granted _ _ _ _ Hreq). cbv zeta.
  assert (text pre ∧ text suf) as [Hpre Hsuf].
  { pose proof (cstr_text d) as H. rewrite Hocc in H.
    apply text_app in H as [? [? ?]%text_app]. done. }
  assert (strlen d = length pre + strlen word1 + length suf) as Hlen.
  { rewrite <- (length_cstr d), Hocc, !length_app, length_cstr. lia. }
  rewrite Hlen.
  replace (length pre + strlen word1 + length suf - strlen word1 + strlen word2 + 1)
    with (length pre + (1 + (strlen word2 + length suf))) by lia.
  rewrite !replicate_add. change (replicate 1 j) with [j]. rewrite <- (cons_middle j).
  (* the prefix *)
  assert (strncpy (replicate (length pre) j
                     ++ j :: replicate (strlen word2) j ++ replicate (length suf) j)
            d (length pre)
          = pre ++ j :: replicate (strlen word2) j ++ replicate (length suf) j) as ->.
  { unfold strncpy. rewrite Hocc, <- app_assoc, take_app_length.
    apply poke_front. by rewrite length_replicate. }
  rewrite store_middle.
  (* the new word *)
  rewrite strcat_room by (done || apply length_replicate).
  (* the rest of the old content *)
  assert (cstr (drop (length pre + strlen word1) d) = suf) as Hrest.
  { rewrite <- (take_drop (strlen d) d) at 1. fold (cstr d). rewrite Hocc.
    rewrite !app_assoc, <- (app_assoc _ suf).
    rewrite drop_app_length' by (rewrite length_app, length_cstr; done).
    apply cstr_with_tail; [done|apply strlen_drop]. }
  rewrite app_assoc.
  rewrite <- (app_nil_r (replicate (length suf) j)).
  rewrite strcat_room.
  - rewrite Hrest. by rewrite <- !app_assoc.
  - apply text_app. split; [done|apply cstr_text].
  - rewrite length_replicate. by rewrite <- (length_cstr (drop _ d)), Hrest.
Qed.

Lemma str_swap_word_stack s (word1 word2 : option (list Z)) h :
  is_dynamic s = false →
  str_swap_word (Some s) word1 word2 h = ((-1)%Z, Some s, h).
Proof.
  intros Hdyn. unfold str_swap_word. rewrite Hdyn.
  by destruct (data s), word1, word2.
Qed.

End replacing.

(** C8: on a heap-owned handle whose content is [pre ++ w1 ++ suf] with
    no occurrence of [w1] starting earlier, [str_swap_word] (its [malloc]
    granted) returns 0 and leaves the content [pre ++ w2 ++ suf], in a
    buffer of exactly that size plus the terminator; on a handle that is
    not heap-owned it returns -1 and changes nothing. *)
Theorem swap_first_occurrence (s : Str) (d word1 word2 pre suf : list Z)
    (h h' : Allocator) (j : Z) :
  data s = Some d →
  cstr d = pre ++ cstr word1 ++ suf →
  (∀ pre' suf', cstr d = pre' ++ cstr word1 ++ suf' → length pre ≤ length pre') →
  request h = (Some j, h') →
  (is_dynamic s = true →
   ∃ d', str_swap_word (Some s) (Some word1) (Some word2) h
         = (0%Z, Some (set_data s (Some d')), h')
     ∧ cstr d' = pre ++ cstr word2 ++ suf
     ∧ length d' = length (pre ++ cstr word2 ++ suf) + 1)
  ∧ (is_dynamic s = false →
     str_swap_word (Some s) (Some word1) (Some word2) h = ((-1)%Z, Some s, h)).
Proof.
  intros Hs Hocc Hmin Hreq. split.
  - intros Hdyn. exists (pre ++ cstr word2 ++ suf ++ [0%Z]).
    split; [by eapply str_swap_word_ok|].
    assert (text (pre ++ cstr word2 ++ suf)) as Htext.
    { pose proof (cstr_text d) as H. rewrite Hocc in H.
      apply text_app in H as [? [? ?]%text_app].
      apply text_app; split; [done|]. apply text_app; split; [apply cstr_text|done]. }
    replace (pre ++ cstr word2 ++ suf ++ [0%Z])
      with ((pre ++ cstr word2 ++ suf) ++ [0%Z]) by by rewrite <- !app_assoc.
    split; [by apply cstr_string|]. rewrite length_app. done.
  - intros Hdyn. by apply str_swap_word_stack.
Qed.

Lemma swap_first_occurrence_witness :
  (∃ d', str_swap_word (Some {| data := Some (lit "a w1 b w1"); is_dynamic := true |})
           (Some (lit "w1")) (Some (lit "xyz")) []
         = (0%Z, Some {| data := Some d'; is_dynamic := true |}, [])
     ∧ cstr d' = bytes "a xyz b w1")
  ∧ str_swap_word (Some {| data := Some (lit "a w1 b w1"); is_dynamic := false |})
      (Some (lit "w1")) (Some (lit "xyz")) []
    = ((-1)%Z, Some {| data := Some (lit "a w1 b w1"); is_dynamic := false |}, []).
Proof.
  assert (∀ pre' suf' : list Z,
            cstr (lit "a w1 b w1") = pre' ++ cstr (lit "w1") ++ suf' →
            length (bytes "a ") ≤ length pre') as Hmin.
  { intros [|x [|y pre']] suf'; vm_compute; intros E; (discriminate || lia). }
  split.
  - destruct (swap_first_occurrence
                {| data := Some (lit "a w1 b w1"); is_dynamic := true |}
                (lit "a w1 b w1") (lit "w1") (lit "xyz") (bytes "a ") (bytes " b w1")
                [] [] 0%Z eq_refl eq_refl Hmin eq_refl) as [H _].
    destruct (H eq_refl) as (d' & E & C & _). exists d'. split; [exact E|exact C].
  - destruct (swap_first_occurrence
                {| data := Some (lit "a w1 b w1"); is_dynamic := false |}
                (lit "a w1 b w1") (lit "w1") (lit "xyz") (bytes "a ") (bytes " b w1")
                [] [] 0%Z eq_refl eq_refl Hmin eq_refl) as [_ H].
    exact (H eq_refl).
Defined.

(** ** Removing a word *)

Section removing.
Implicit Types (s : Str) (d needle : list Z) (h : Allocator).

(** With an empty needle nothing moves: the search stops at offset 0, the
    [memmove] copies the string onto itself and the terminator is written
    where it already is. *)
Lemma rem_empty_needle_block d :
  terminated d →
  <[strlen d - 0 := 0%Z]> (memmove d 0 (0 + 0) (strlen d - 0 - 0 + 1)) = d.
Proof.
  intros Hd. unfold memmove. rewrite poke_same.
  rewrite Nat.sub_0_r. by apply list_insert_id, terminated_lookup.
Qed.

Lemma strstr_empty_needle d needle : strlen needle = 0 → strstr d needle = Some 0.
Proof.
  intros Hn. unfold strstr, cstr at 1. rewrite Hn. by apply find_from_here.
Qed.

Lemma str_rem_word_status self (needle : option (list Z)) h r self' h' :
  str_rem_word self needle h = (r, self', h') →
  r ≠ 0%Z → granted h h' → self' = self.
Proof.
  unfold str_rem_word. destruct self as [s|]; [|by intros [= <- <- <-]].
  destruct (data s) as [d|]; [|by intros [= <- <- <-]].
  destruct needle as [n|]; [|by intros [= <- <- <-]].
  destruct (decide _); [by intros [= <- <- <-]|].
  destruct (strstr d n) as [L|]; [|by intros [= <- <- <-]].
  destruct (request_cases h) as [(j & h1 & Hreq)|(h1 & Hreq & ->)].
  - rewrite (realloc_granted _ _ _ _ _ Hreq). by intros [= <- <- <-].
  - rewrite (realloc_refused _ _ _ _ Hreq). intros [= <- <- <-] _ Hg.
    by destruct (refused_not_granted _ Hg).
Qed.

Lemma str_pop_back_status self sep h r self' h' :
  str_pop_back self sep h = (r, self', h') →
  r ≠ 0%Z → granted h h' → self' = self.
Proof.
  unfold str_pop_back. destruct self as [s|]; [|by intros [= <- <- <-]].
  destruct (data s) as [d|]; [|by intros [= <- <- <-]].
  destruct (decide _); [by intros [= <- <- <-]|].
  destruct (strrchr d sep) as [p|]; [|by intros [= <- <- <-]].
  destruct (request_cases h) as [(j & h1 & Hreq)|(h1 & Hreq & ->)].
  - rewrite (realloc_granted _ _ _ _ _ Hreq). by intros [= <- <- <-].
  - rewrite (realloc_refused _ _ _ _ Hreq). intros [= <- <- <-] _ Hg.
    by destruct (refused_not_granted _ Hg).
Qed.

Lemma str_swap_word_status self (word1 word2 : option (list Z)) h r self' h' :
  str_swap_word self word1 word2 h = (r, self', h') →
  r ≠ 0%Z → self' = self.
Proof.
  unfold str_swap_word. destruct self as [s|]; [|by intros [= <- <- <-]].
  destruct (data s) as [d|]; [|by intros [= <- <- <-]].
  destruct (is_dynamic s); [|by intros [= <- <- <-]].
  destruct word1 as [w1|]; [|by intros [= <- <- <-]].
  destruct word2 as [w2|]; [|by intros [= <- <- <-]].
  destruct (strstr d w1) as [L|]; [|by intros [= <- <- <-]].
  destruct (malloc _ h) as [[buf|] h1]; by intros [= <- <- <-].
Qed.

End removing.

(** C10: on a handle that holds a string, [str_rem_word] with an empty
    needle leaves the content and [str_get_size] as they were, and returns
    0 whenever its [realloc] is granted. *)
Theorem rem_word_empty_needle (s : Str) (d needle : list Z) (h : Allocator) :
  data s = Some d → terminated d → strlen needle = 0 →
  content (str_rem_word (Some s) (Some needle) h).1.2 = Some (cstr d)
  ∧ str_get_size (str_rem_word (Some s) (Some needle) h).1.2 = strlen d
  ∧ (is_Some (request h).1 → (str_rem_word (Some s) (Some needle) h).1.1 = 0%Z).
Proof.
  intros Hs Hd Hn. unfold str_rem_word. rewrite Hs, Hn.
  rewrite decide_False by lia.
  rewrite (strstr_empty_needle _ _ Hn). cbv zeta.
  rewrite rem_empty_needle_block by done.
  destruct (request_cases h) as [(j & h1 & Hreq)|(h1 & Hreq & ->)].
  - rewrite (realloc_granted _ _ _ _ _ Hreq). simpl.
    apply terminated_inv in Hd as (c & r & -> & Hc).
    rewrite Nat.sub_0_r, strlen_string, resize_exact, cstr_string by done.
    replace (c ++ [0%Z]) with (c ++ 0%Z :: []) by done.
    by rewrite cstr_string, strlen_string by done.
  - rewrite (realloc_refused _ _ _ _ Hreq). simpl.
    split; [done|]. split; [done|]. by intros [? [=]].
Qed.

Lemma rem_word_empty_needle_witness :
  content (str_rem_word (Some {| data := Some (lit "abc"); is_dynamic := true |})
             (Some (lit "")) []).1.2 = Some (bytes "abc")
  ∧ str_get_size (str_rem_word (Some {| data := Some (lit "abc"); is_dynamic := true |})
                    (Some (lit "")) []).1.2 = 3
  ∧ (str_rem_word (Some {| data := Some (lit "abc"); is_dynamic := true |})
       (Some (lit "")) []).1.1 = 0%Z.
Proof.
  destruct (rem_word_empty_needle {| data := Some (lit "abc"); is_dynamic := true |}
              (lit "abc") (lit "") []) as (C & S & R).
  - reflexivity.
  - unfold terminated. vm_compute. lia.
  - reflexivity.
  - split; [exact C|]. split; [exact S|]. apply R. by eexists.
Defined.

(** ** Failure *)

Section failure.
Implicit Types (self : option Str) (s : Str) (input : Stdin) (h : Allocator).

Lemma set_data_same s : set_data s (data s) = s.
Proof. by destruct s. Qed.

Lemma str_input_status self input h r self' input' h' :
  str_input self input h = (r, self', input', h') → r ≠ 0%Z → self' = self.
Proof.
  unfold str_input. destruct self as [s|]; [|by intros [= <- <- <- <-]].
  destruct (data s) as [d|] eqn:Hs; [by intros [= <- <- <- <-]|].
  destruct (get_dyn_input _ input h) as [[[res|] i1] h1]; intros [= <- <- <- <-]; [done|].
  intros _. by rewrite <- Hs, set_data_same.
Qed.

Lemma str_add_input_status self input h r self' input' h' :
  str_add_input self input h = (r, self', input', h') → r ≠ 0%Z → self' = self.
Proof.
  unfold str_add_input. destruct self as [s|]; [|by intros [= <- <- <- <-]].
  destruct (data s) as [d|] eqn:Hs.
  - destruct (get_dyn_input _ input h) as [[[buf|] i1] h1];
      [|by intros [= <- <- <- <-]].
    destruct (realloc _ _ h1) as [[new_data|] h2]; by intros [= <- <- <- <-].
  - destruct (get_dyn_input _ input h) as [[[res|] i1] h1];
      intros [= <- <- <- <-]; [done|].
    intros _. by rewrite <- Hs, set_data_same.
Qed.

Lemma in_place_status (f : option Str → Z * option Str) self r self' :
  f ∈ [str_to_upper; str_to_lower; str_to_title_case; str_reverse] →
  f self = (r, self') → r ≠ 0%Z → self' = self.
Proof.
  intros Hf. repeat (apply elem_of_cons in Hf as [->|Hf]);
    [..|by apply elem_of_nil in Hf];
    unfold str_to_upper, str_to_lower, str_to_title_case, str_reverse;
    (destruct self as [s|]; [|by intros [= <- <-]]);
    (destruct (data s) as [d|]; [|by intros [= <- <-]]);
    try (destruct (decide _); [by intros [= <- <-]|]);
    by intros [= <- <-].
Qed.

(** An absent content makes every operation that works on the content
    fail with -1 before it touches anything. *)
Lemma absent_content_fails c s input h :
  data s = None → fills c = false →
  run c (Some s) input h = ((-1)%Z, Some s, input, h).
Proof.
  intros Hs Hc. destruct c; try discriminate; simpl;
    unfold str_pop_back, str_rem_word, str_swap_word, str_to_upper, str_to_lower,
      str_to_title_case, str_reverse; rewrite Hs; done.
Qed.

End failure.

(** C3: whatever the operation and the handle, when the call returns a
    non-zero status and every request it made to the allocator was
    granted, the handle, and so its content, is as before the call. *)
Theorem failure_is_atomic (c : call) (self self' : option Str)
    (input input' : Stdin) (h h' : Allocator) (r : Z) :
  run c self input h = (r, self', input', h') →
  r ≠ 0%Z → granted h h' →
  self' = self ∧ content self' = content self.
Proof.
  intros Hrun Hr Hg.
  assert (self' = self) as ->; [|done].
  destruct c; simpl in Hrun.
  - destruct (str_add self _data h) as [[r0 s0] h0] eqn:E.
    injection Hrun as -> -> _ ->. by eapply str_add_status.
  - by eapply str_input_status.
  - by eapply str_add_input_status.
  - destruct (str_pop_back self sep h) as [[r0 s0] h0] eqn:E.
    injection Hrun as -> -> _ ->. by eapply str_pop_back_status.
  - destruct (str_rem_word self needle h) as [[r0 s0] h0] eqn:E.
    injection Hrun as -> -> _ ->. by eapply str_rem_word_status.
  - destruct (str_swap_word self word1 word2 h) as [[r0 s0] h0] eqn:E.
    injection Hrun as -> -> _ ->. by eapply str_swap_word_status.
  - destruct (str_to_upper self) as [r0 s0] eqn:E.
    injection Hrun as -> -> _ _.
    eapply (in_place_status str_to_upper); [set_solver|done..].
  - destruct (str_to_lower self) as [r0 s0] eqn:E.
    injection Hrun as -> -> _ _.
    eapply (in_place_status str_to_lower); [set_solver|done..].
  - destruct (str_to_title_case self) as [r0 s0] eqn:E.
    injection Hrun as -> -> _ _.
    eapply (in_place_status str_to_title_case); [set_solver|done..].
  - destruct (str_reverse self) as [r0 s0] eqn:E.
    injection Hrun as -> -> _ _.
    eapply (in_place_status str_reverse); [set_solver|done..].
Qed.

Lemma failure_is_atomic_witness :
  (run (PopBack 47) (Some {| data := Some (lit "abc"); is_dynamic := true |})
     [] [Some 1%Z]).1.1.2
  = Some {| data := Some (lit "abc"); is_dynamic := true |}
  ∧ content (run (PopBack 47) (Some {| data := Some (lit "abc"); is_dynamic := true |})
               [] [Some 1%Z]).1.1.2
    = content (Some {| data := Some (lit "abc"); is_dynamic := true |}).
Proof.
  apply (failure_is_atomic (PopBack 47)
           (Some {| data := Some (lit "abc"); is_dynamic := true |}) _
           [] [] [Some 1%Z] [Some 1%Z] (- EINVAL)%Z).
  - reflexivity.
  - unfold EINVAL. lia.
  - exists []. reflexivity.
Defined.

(** A refused [realloc] is the one failure that leaves a changed content:
    the cut is made in place before the buffer is trimmed. *)
Example pop_back_refused_realloc :
  str_pop_back (Some {| data := Some (lit "/usr/bin"); is_dynamic := true |}) 47 [None]
  = ((-1)%Z, Some {| data := Some (bytes "/usr/" ++ 0%Z :: bytes "in" ++ [0%Z]);
                     is_dynamic := true |}, []).
Proof. reflexivity. Qed.

(** C7, as stated, fails: [str_add] on a handle whose content is absent
    returns 0 and fills the handle. *)
Lemma add_on_absent_content_succeeds :
  data {| data := None; is_dynamic := true |} = None
  ∧ run (Add (Some (lit "hello"))) (Some {| data := None; is_dynamic := true |}) [] []
    = (0%Z, Some {| data := Some (lit "hello"); is_dynamic := true |}, [], []).
Proof. split; reflexivity. Qed.

(** C7, amended: on a handle whose content is absent, every operation
    other than the three that fill a handle ([str_add], [str_input],
    [str_add_input]) returns -1 and leaves handle, input and allocator
    untouched; [str_reverse] on a fresh handle is one instance. *)
Theorem absent_content_rejected (c : call) (s : Str) (input : Stdin) (h : Allocator) :
  data s = None → fills c = false →
  run c (Some s) input h = ((-1)%Z, Some s, input, h)
  ∧ str_reverse (str_init []).1 = ((-1)%Z, (str_init []).1).
Proof.
  intros Hs Hc. split; [by apply absent_content_fails|reflexivity].
Qed.

Lemma absent_content_rejected_witness :
  run Reverse (Some {| data := None; is_dynamic := true |}) [] []
  = ((-1)%Z, Some {| data := None; is_dynamic := true |}, [], [])
  ∧ str_reverse (str_init []).1 = ((-1)%Z, (str_init []).1).
Proof.
  apply (absent_content_rejected Reverse {| data := None; is_dynamic := true |} [] []).
  - reflexivity.
  - reflexivity.
Defined.

(** ** Not found *)

(** C5, as stated, fails: for [str_rem_word] a needle that does not occur
    and a needle longer than the content get the same status. *)
Lemma not_found_same_as_too_long :
  (∀ pre suf, cstr (lit "abc") ≠ pre ++ cstr (lit "zz") ++ suf)
  ∧ strlen (lit "zz") ≤ strlen (lit "abc")
  ∧ strlen (lit "abc") < strlen (lit "zzzz")
  ∧ (str_rem_word (Some {| data := Some (lit "abc"); is_dynamic := true |})
       (Some (lit "zz")) []).1.1
    = (str_rem_word (Some {| data := Some (lit "abc"); is_dynamic := true |})
         (Some (lit "zzzz")) []).1.1.
Proof.
  split; [|split; [vm_compute; lia|split; [vm_compute; lia|reflexivity]]].
  intros pre suf. vm_compute.
  destruct pre as [|a [|b [|c [|e pre]]]]; simpl; intros [=]; subst; discriminate.
Qed.

(** C5, amended: [str_pop_back] returns [-EINVAL] when the non-zero
    separator is not in the non-empty content, and -1 for an absent
    handle and for absent or empty content; [str_rem_word] returns
    [-EINVAL] when the needle does not occur in the content, the same
    status as for a needle longer than the content, and -1 for an absent
    handle, content or needle.  The two statuses differ, and a failed
    search changes nothing. *)
Theorem not_found_status (s : Str) (d needle : list Z) (sep : Z) (h : Allocator) :
  data s = Some d →
  sep ≠ 0%Z → sep ∉ cstr d →
  (∀ pre suf, cstr d ≠ pre ++ cstr needle ++ suf) →
  (strlen d ≠ 0 → str_pop_back (Some s) sep h = ((- EINVAL)%Z, Some s, h))
  ∧ (strlen d = 0 → str_pop_back (Some s) sep h = ((-1)%Z, Some s, h))
  ∧ str_pop_back (Some (set_data s None)) sep h = ((-1)%Z, Some (set_data s None), h)
  ∧ str_pop_back None sep h = ((-1)%Z, None, h)
  ∧ str_rem_word (Some s) (Some needle) h = ((- EINVAL)%Z, Some s, h)
  ∧ (∀ n, strlen d < strlen n →
          str_rem_word (Some s) (Some n) h = ((- EINVAL)%Z, Some s, h))
  ∧ str_rem_word (Some s) None h = ((-1)%Z, Some s, h)
  ∧ str_rem_word (Some (set_data s None)) (Some needle) h
    = ((-1)%Z, Some (set_data s None), h)
  ∧ str_rem_word None (Some needle) h = ((-1)%Z, None, h)
  ∧ (- EINVAL)%Z ≠ (-1)%Z.
Proof.
  intros Hs Hsep Hnotin Hno.
  repeat split; try done.
  - intros Hne. unfold str_pop_back. rewrite Hs, decide_False by done.
    by rewrite strrchr_none.
  - intros He. unfold str_pop_back. by rewrite Hs, decide_True.
  - unfold str_rem_word. rewrite Hs.
    destruct (decide _); [done|].
    unfold strstr. by rewrite find_from_none.
  - intros n Hn. unfold str_rem_word. by rewrite Hs, decide_True.
  - unfold str_rem_word. by rewrite Hs.
Qed.

Lemma not_found_status_witness :
  str_pop_back (Some {| data := Some (lit "abc"); is_dynamic := true |}) 47 []
  = ((- EINVAL)%Z, Some {| data := Some (lit "abc"); is_dynamic := true |}, [])
  ∧ str_rem_word (Some {| data := Some (lit "abc"); is_dynamic := true |})
      (Some (lit "zz")) []
    = ((- EINVAL)%Z, Some {| data := Some (lit "abc"); is_dynamic := true |}, []).
Proof.
  destruct (not_found_status {| data := Some (lit "abc"); is_dynamic := true |}
              (lit "abc") (lit "zz") 47 []) as (P & _ & _ & _ & R & _).
  - reflexivity.
  - lia.
  - vm_compute. intros H. repeat (apply elem_of_cons in H as [H|H]; [lia|]).
    by apply elem_of_nil in H.
  - intros pre suf. vm_compute.
    destruct pre as [|a [|b [|c [|e pre]]]]; simpl; intros [=]; subst; discriminate.
  - split; [apply P; vm_compute; lia|exact R].
Defined.

(** ** Title case *)

(** The flag stays raised over a byte that is neither a lower-case letter
    nor a space: an upper-case letter at the start of a word does not use
    it up. *)
Lemma title_loop_keeps_flag c r :
  c ≠ 0%Z → is_lower c = false → c ≠ 32%Z →
  title_loop true (c :: r) = c :: title_loop true r.
Proof.
  intros H0 Hl Hs. simpl. rewrite Hl.
  destruct (Z.eqb_spec c 0); [done|]. by destruct (Z.eqb_spec c 32).
Qed.

(** Whatever the flag, the loop keeps the length of the block and every
    byte that is not a lower-case letter. *)
Lemma title_loop_length flag p : length (title_loop flag p) = length p.
Proof.
  revert flag. induction p as [|c p IH]; intros flag; simpl; [done|].
  destruct (c =? 0)%Z; [done|].
  destruct (flag && is_lower c); simpl; [by rewrite IH|].
  destruct (c =? 32)%Z; simpl; by rewrite IH.
Qed.

Lemma title_loop_other_bytes flag p i c :
  p !! i = Some c → is_lower c = false → title_loop flag p !! i = Some c.
Proof.
  revert flag i. induction p as [|x p IH]; intros flag i Hi Hc; [done|].
  simpl. destruct (x =? 0)%Z; [done|].
  destruct i as [|i]; simpl in Hi.
  - injection Hi as ->. rewrite Hc, andb_false_r.
    by destruct (c =? 32)%Z.
  - destruct (flag && is_lower x); simpl; [by apply IH|].
    destruct (x =? 32)%Z; simpl; by apply IH.
Qed.

(** C1 fails on the code: in "Hello" the word starts with an upper-case
    letter, and [str_to_title_case] turns the letter after it to upper
    case. *)
Theorem title_case_after_capital :
  str_to_title_case (Some {| data := Some (lit "Hello"); is_dynamic := true |})
  = (0%Z, Some {| data := Some (lit "HEllo"); is_dynamic := true |}).
Proof. reflexivity. Qed.

(** ** The registry: add, then free *)

Module RegistryFacts.
Import Registry.

Lemma two_nodes_built :
  ∃ s1, pointer_counter_add {| nodes := ∅; head := None |} (Some 10%positive)
          (Some 1%positive) (Some 101%positive) true = Returns 0 s1
    ∧ pointer_counter_add s1 (Some 20%positive)
        (Some 2%positive) (Some 102%positive) true = Returns 0 two_nodes.
Proof. eexists. split; reflexivity. Qed.

(** Every node carries the counter 1: the increment is applied to the new
    node, whose counter [calloc] has just zeroed, never to the head. *)
Lemma add_counter_is_one (s : state) (p pc st : option loc) (s' : state) (a : loc) :
  pc = Some a →
  pointer_counter_add s p pc st true = Returns 0 s' →
  counter <$> nodes s' !! a = Some 1%Z.
Proof.
  intros -> H. unfold pointer_counter_add in H.
  destruct p as [p|]; [|done].
  unfold pointer_counter_create in H. destruct st as [st|]; [|done].
  destruct (head s) as [hd|].
  - destruct (last_node _ _ hd) as [tl|]; [|done]. injection H as <-. simpl.
    rewrite lookup_alter_eq.
    destruct (decide (tl = a)) as [->|Hne].
    + by rewrite lookup_alter_eq, lookup_insert_eq.
    + by rewrite lookup_alter_ne, lookup_insert_eq.
  - injection H as <-. simpl. by rewrite lookup_alter_eq, lookup_insert_eq.
Qed.

(** The one registry shape on which the pair works: a single other
    handle, so that the new node is the second of the list. *)
Example add_free_second_node :
  ∃ s1 s2 s3,
    pointer_counter_add {| nodes := ∅; head := None |} (Some 10%positive)
      (Some 1%positive) (Some 101%positive) true = Returns 0 s1
    ∧ pointer_counter_add s1 (Some 30%positive)
        (Some 3%positive) (Some 103%positive) true = Returns 0 s2
    ∧ pointer_counter_free s2 (Some 30%positive) = Returns 0 s3
    ∧ handles s3 = Some [Some 10%positive].
Proof. do 3 eexists. repeat split; reflexivity. Qed.

End RegistryFacts.

(** C4 fails on the code.  With two other handles registered, the node
    added for handle 30 is the third of the list; [pointer_counter_free]
    looks at the head, then scans [head->counter] = 1 further node, and
    leaves the loop and the function without a [return], the node for 30
    still linked.  On the empty registry the pair returns 0 twice, but the
    caller's [*head] still holds the address of the freed node. *)
Theorem add_then_free_misses :
  Registry.pointer_counter_add Registry.two_nodes (Some 30%positive)
    (Some 3%positive) (Some 103%positive) true
  = Registry.Returns 0 Registry.three_nodes
  ∧ Registry.pointer_counter_free Registry.three_nodes (Some 30%positive)
    = Registry.FallsOff Registry.three_nodes
  ∧ Registry.handles Registry.three_nodes
    = Some [Some 10%positive; Some 20%positive; Some 30%positive]
  ∧ ∃ s1 s2,
      Registry.pointer_counter_add {| Registry.nodes := ∅; Registry.head := None |}
        (Some 30%positive) (Some 3%positive) (Some 103%positive) true
      = Registry.Returns 0 s1
      ∧ Registry.pointer_counter_free s1 (Some 30%positive) = Registry.Returns 0 s2
      ∧ Registry.head s2 = Some 3%positive
      ∧ Registry.nodes s2 !! 3%positive = None
      ∧ Registry.handles s2 = None.
Proof.
  split; [reflexivity|]. split; [reflexivity|]. split; [reflexivity|].
  do 2 eexists. repeat split; reflexivity.
Qed.

(** ** Reading a line *)

Section reading.
Implicit Types (input : Stdin) (h : Allocator) (buffer done rest : list Z).

Lemma generous_request h :
  generous h → ∃ j h', request h = (Some j, h') ∧ generous h'.
Proof.
  destruct 1 as [|o h [j ->] Hh]; simpl.
  - exists 0%Z, []. split; [done|constructor].
  - by exists j, h.
Qed.

Lemma capacity_step n :
  (if (capacity n <=? Z.of_nat n + 1)%Z then capacity n + 10 else capacity n)%Z
  = capacity (S n).
Proof.
  unfold capacity. rewrite Nat2Z.inj_succ.
  destruct (Z.leb_spec (10 * (Z.of_nat n / 10 + 1)) (Z.of_nat n + 1));
    Z.to_euclidean_division_equations; lia.
Qed.

Lemma capacity_room n : (Z.of_nat n + 1 ≤ capacity n ∧ capacity n ≤ Z.of_nat n + 10)%Z.
Proof. unfold capacity. Z.to_euclidean_division_equations; lia. Qed.

Lemma capacity_mono n m : n ≤ m → (capacity n ≤ capacity m)%Z.
Proof.
  intros H. unfold capacity.
  assert (Z.of_nat n / 10 ≤ Z.of_nat m / 10)%Z by (apply Z.div_le_mono; lia). lia.
Qed.

Lemma size_t_small x : (0 ≤ x ≤ SIZE_MAX)%Z → size_t x = x.
Proof. unfold size_t, SIZE_MAX. intros H. apply Z.mod_small. lia. Qed.

(** The loop, from a state in which [done] has been read. *)
Lemma get_dyn_input_loop_spec max_str_size : ∀ input h buffer done rest,
  buffer = done ++ 0%Z :: rest →
  Z.of_nat (length buffer) = capacity (length done) →
  generous h →
  (Z.of_nat (length done + length (line input)) + 20 ≤ SIZE_MAX)%Z →
  match get_dyn_input_loop max_str_size input h buffer
          (capacity (length done)) (Z.of_nat (length done)) with
  | (None, _, _) =>
      line input ≠ []
      ∧ (size_t (max_str_size - 1) ≤ capacity (length done + length (line input)))%Z
  | (Some (b, len), input', h') =>
      ¬ (line input ≠ []
         ∧ (size_t (max_str_size - 1)
            ≤ capacity (length done + length (line input)))%Z)
      ∧ len = Z.of_nat (length done + length (line input))
      ∧ (∃ rest', b = (done ++ line input) ++ 0%Z :: rest')
      ∧ input' = after_line input ∧ generous h'
  end.
Proof.
  induction input as [|c input IH]; intros h buffer done rest Hb Hcap Hh Hmax.
  - simpl. rewrite Nat.add_0_r, app_nil_r. split; [by intros [? _]|eauto].
  - cbn [get_dyn_input_loop line after_line] in *.
    destruct (Z.eqb_spec c 10) as [->|Hc].
    { simpl. rewrite Nat.add_0_r, app_nil_r. split; [by intros [? _]|eauto]. }
    cbn [length] in *.
    pose proof (capacity_room (length done)) as [Hlo Hhi].
    pose proof (capacity_step (length done)) as Hstep.
    rewrite (size_t_small (Z.of_nat (length done) + 1)) by lia.
    (* the state after the capacity test *)
    assert (∃ rest1 h1,
      (if (capacity (length done) <=? Z.of_nat (length done) + 1)%Z
       then
         match realloc buffer (Z.to_nat (size_t (capacity (length done) + CHUNK_SIZE))) h with
         | (Some tmp, h') => (Some (tmp, size_t (capacity (length done) + CHUNK_SIZE)), h')
         | (None, h') => (None, h')
         end
       else (Some (buffer, capacity (length done)), h))
      = (Some (done ++ 0%Z :: rest1, capacity (S (length done))), h1)
      ∧ Z.of_nat (length (done ++ 0%Z :: rest1)) = capacity (S (length done))
      ∧ generous h1) as (rest1 & h1 & -> & Hlen1 & Hh1).
    { destruct (capacity (length done) <=? Z.of_nat (length done) + 1)%Z.
      - destruct (generous_request h Hh) as (j & h1 & Hreq & Hh1).
        rewrite (realloc_granted _ _ _ _ _ Hreq).
        unfold CHUNK_SIZE. rewrite size_t_small by lia. rewrite Hstep.
        exists (rest ++ replicate 10 j), h1.
        rewrite resize_ge by lia.
        replace (Z.to_nat (capacity (S (length done))) - length buffer) with 10 by lia.
        subst buffer. rewrite <- app_assoc. simpl. split; [done|]. split; [|done].
        rewrite <- Hstep, <- Hcap, !length_app. simpl. rewrite length_app. simpl. lia.
      - exists rest, h. rewrite <- Hstep. subst buffer. done. }
    pose proof (capacity_room (S (length done))) as [Hlo1 Hhi1].
    destruct (Z.leb_spec (size_t (max_str_size - 1)) (capacity (S (length done))))
      as [Hfail|Hok].
    { split; [done|].
      etrans; [exact Hfail|]. apply capacity_mono. lia. }
    (* the two stores *)
    rewrite Nat2Z.id, store_middle.
    destruct rest1 as [|x rest1].
    { rewrite length_app in Hlen1. simpl in Hlen1. lia. }
    replace (done ++ c :: x :: rest1) with ((done ++ [c]) ++ x :: rest1)
      by by rewrite <- app_assoc.
    replace (Z.to_nat (Z.of_nat (length done) + 1)) with (length (done ++ [c]))
      by (rewrite length_app; simpl; lia).
    rewrite store_middle.
    replace (Z.of_nat (length done) + 1)%Z with (Z.of_nat (length (done ++ [c])))
      by (rewrite length_app; simpl; lia).
    replace (capacity (S (length done))) with (capacity (length (done ++ [c])))
      by (rewrite length_app; simpl; do 2 f_equal; lia).
    assert (length (done ++ [c]) = S (length done)) as Hd1
      by (rewrite length_app; simpl; lia).
    specialize (IH h1 ((done ++ [c]) ++ 0%Z :: rest1) (done ++ [c]) rest1 eq_refl).
    destruct (get_dyn_input_loop max_str_size input h1 _ _ _) as [[[[b len]|] input'] h'].
    + destruct IH as (Hno & -> & (rest' & ->) & -> & Hh'); [| done | lia |].
      { rewrite Hd1, <- Hlen1, !length_app. simpl. lia. }
      rewrite Hd1 in Hno. rewrite Hd1.
      replace (length done + S (length (line input)))
        with (S (length done) + length (line input)) by lia.
      split; [|split; [done|split; [|done]]].
      * intros [_ Hle]. destruct (line input) eqn:El.
        -- rewrite Nat.add_0_r in Hle. lia.
        -- apply Hno. done.
      * exists rest'. by rewrite <- !app_assoc.
    + destruct IH as (Hne & Hle); [| done | lia |].
      { rewrite Hd1, <- Hlen1, !length_app. simpl. lia. }
      split; [done|]. rewrite Hd1 in Hle.
      by replace (length done + S (length (line input)))
        with (S (length done) + length (line input)) by lia.
Qed.

End reading.

(** C2, as stated, fails: with the bound 11 a line of one byte is
    refused, though neither its length nor the size of its string reaches
    the bound. *)
Lemma short_line_refused :
  line (bytes "a" ++ [10%Z]) = bytes "a"
  ∧ (Z.of_nat (length (line (bytes "a" ++ [10%Z]))) + 1 < 11)%Z
  ∧ get_dyn_input 11 (bytes "a" ++ [10%Z]) [] = (None, [10%Z], []).
Proof. split; [reflexivity|]. split; [vm_compute; reflexivity|reflexivity]. Qed.

(** C2, amended: with an allocator that grants every request and a line
    that has no zero byte, [get_dyn_input] returns NULL exactly when the
    line is not empty and the staging capacity for it (10 bytes, 10 more
    whenever the next byte and its terminator would not fit) reaches
    [max_str_size - 1] taken in [size_t]; otherwise it returns the line
    in a block of exactly its length plus the terminator.  An empty line
    gives the empty string whatever the bound. *)
Theorem get_dyn_input_bound (max_str_size : Z) (input : Stdin) (h : Allocator) :
  generous h → text (line input) →
  (Z.of_nat (length (line input)) + 20 ≤ SIZE_MAX)%Z →
  (get_dyn_input max_str_size input h).1.1
  = if decide (line input ≠ []
               ∧ (size_t (max_str_size - 1) ≤ capacity (length (line input)))%Z)
    then None
    else Some (line input ++ [0%Z]).
Proof.
  intros Hh Htext Hmax. unfold get_dyn_input.
  destruct (generous_request h Hh) as (j0 & h0 & Hreq0 & Hh0).
  rewrite (calloc_granted _ _ _ _ Hreq0).
  pose proof (get_dyn_input_loop_spec max_str_size input h0
                (replicate (Z.to_nat CHUNK_SIZE) 0%Z) [] (replicate 9 0%Z)
                eq_refl eq_refl Hh0 Hmax) as Hloop.
  change (capacity (length [])) with CHUNK_SIZE in Hloop.
  change (Z.of_nat (length [])) with 0%Z in Hloop.
  cbn [length Nat.add app] in Hloop.
  destruct (get_dyn_input_loop max_str_size input h0 _ _ _)
    as [[[[b len]|] input'] h1].
  - destruct Hloop as (Hno & -> & (rest' & ->) & _ & Hh1).
    rewrite decide_False by done.
    destruct (generous_request h1 Hh1) as (j1 & h2 & Hreq1 & _).
    rewrite (malloc_granted _ _ _ _ Hreq1). cbn [fst].
    rewrite size_t_small by lia.
    replace (Z.to_nat (Z.of_nat (length (line input)) + 1))
      with (length (line input) + 1) by lia.
    rewrite strlen_string by done.
    unfold strncpy. rewrite cstr_string by done.
    rewrite take_app_length.
    rewrite replicate_add. simpl replicate.
    rewrite poke_front by apply length_replicate.
    by rewrite store_middle.
  - by rewrite decide_True.
Qed.

Lemma get_dyn_input_bound_witness :
  (get_dyn_input 12 (bytes "abcdefghi" ++ 10%Z :: bytes "rest") []).1.1
  = Some (lit "abcdefghi")
  ∧ (get_dyn_input 12 (bytes "abcdefghij" ++ 10%Z :: bytes "rest") []).1.1 = None.
Proof.
  split.
  - apply (get_dyn_input_bound 12 (bytes "abcdefghi" ++ 10%Z :: bytes "rest") []).
    + constructor.
    + vm_compute. repeat constructor; lia.
    + vm_compute. discriminate.
  - apply (get_dyn_input_bound 12 (bytes "abcdefghij" ++ 10%Z :: bytes "rest") []).
    + constructor.
    + vm_compute. repeat constructor; lia.
    + vm_compute. discriminate.
Defined.

(** * Further properties of the code *)

(** ** Case conversion *)

Section case.
Implicit Types (s : Str) (d p : list Z) (c : Z).

(** Clearing bit 5 of a lower-case letter subtracts 32, setting it in an
    upper-case letter adds 32. *)
Lemma clear_bit5_lower c : is_lower c = true → clear_bit5 c = (c - 32)%Z.
Proof.
  unfold is_lower. intros [H1 H2]%andb_prop.
  apply Z.leb_le in H1, H2.
  assert (∃ n : nat, n < 26 ∧ c = (97 + Z.of_nat n)%Z) as (n & Hn & ->)
    by (exists (Z.to_nat (c - 97)); lia).
  do 26 (destruct n as [|n]; [reflexivity|]). lia.
Qed.

Lemma set_bit5_upper c : is_upper c = true → set_bit5 c = (c + 32)%Z.
Proof.
  unfold is_upper. intros [H1 H2]%andb_prop.
  apply Z.leb_le in H1, H2.
  assert (∃ n : nat, n < 26 ∧ c = (65 + Z.of_nat n)%Z) as (n & Hn & ->)
    by (exists (Z.to_nat (c - 65)); lia).
  do 26 (destruct n as [|n]; [reflexivity|]). lia.
Qed.

Lemma is_lower_range c : is_lower c = true ↔ (97 ≤ c ≤ 122)%Z.
Proof. unfold is_lower. rewrite andb_true_iff, !Z.leb_le. done. Qed.

Lemma is_upper_range c : is_upper c = true ↔ (65 ≤ c ≤ 90)%Z.
Proof. unfold is_upper. rewrite andb_true_iff, !Z.leb_le. done. Qed.

Lemma upper_nonzero c : c ≠ 0%Z → upper c ≠ 0%Z.
Proof.
  unfold upper. destruct (is_lower c) eqn:E; [|done].
  apply is_lower_range in E. lia.
Qed.

Lemma lower_nonzero c : c ≠ 0%Z → lower c ≠ 0%Z.
Proof.
  unfold lower. destruct (is_upper c) eqn:E; [|done].
  apply is_upper_range in E. lia.
Qed.

Lemma to_upper_loop_block p :
  to_upper_loop p = (upper <$> cstr p) ++ drop (strlen p) p.
Proof.
  unfold cstr. induction p as [|c p IH]; simpl; [done|].
  destruct (Z.eqb_spec c 0); simpl; [done|].
  rewrite IH. f_equal. unfold upper.
  destruct (is_lower c) eqn:E; [by apply clear_bit5_lower|done].
Qed.

Lemma to_lower_loop_block p :
  to_lower_loop p = (lower <$> cstr p) ++ drop (strlen p) p.
Proof.
  unfold cstr. induction p as [|c p IH]; simpl; [done|].
  destruct (Z.eqb_spec c 0); simpl; [done|].
  rewrite IH. f_equal. unfold lower.
  destruct (is_upper c) eqn:E; [by apply set_bit5_upper|done].
Qed.

Lemma text_fmap (f : Z → Z) p :
  (∀ c, c ≠ 0%Z → f c ≠ 0%Z) → text p → text (f <$> p).
Proof.
  intros Hf H. unfold text. rewrite Forall_fmap.
  eapply Forall_impl; [exact H|]. intros c Hc. by apply Hf.
Qed.

(** A byte-wise change of the text that keeps zero out of it leaves the
    length of the string and what lies from the terminator on. *)
Lemma cstr_mapped (f : Z → Z) p :
  (∀ c, c ≠ 0%Z → f c ≠ 0%Z) →
  strlen ((f <$> cstr p) ++ drop (strlen p) p) = strlen p
  ∧ cstr ((f <$> cstr p) ++ drop (strlen p) p) = f <$> cstr p
  ∧ drop (strlen p) ((f <$> cstr p) ++ drop (strlen p) p) = drop (strlen p) p.
Proof.
  intros Hf.
  assert (text (f <$> cstr p)) as Ht by (apply text_fmap; [done|apply cstr_text]).
  assert (length (f <$> cstr p) = strlen p) as Hl
    by by rewrite length_fmap, length_cstr.
  assert (strlen ((f <$> cstr p) ++ drop (strlen p) p) = strlen p) as Hs.
  { rewrite strlen_text_app by done. rewrite strlen_drop. lia. }
  split; [done|]. split.
  - unfold cstr at 1. rewrite Hs. by rewrite take_app_length'.
  - by rewrite drop_app_length'.
Qed.

Lemma upper_upper c : upper (upper c) = upper c.
Proof.
  unfold upper. destruct (is_lower c) eqn:E; [|by rewrite E].
  apply is_lower_range in E.
  destruct (is_lower (c - 32)) eqn:E'; [|done].
  apply is_lower_range in E'. lia.
Qed.

Lemma lower_upper c : lower (upper c) = lower c.
Proof.
  unfold upper, lower. destruct (is_lower c) eqn:E; [|done].
  apply is_lower_range in E.
  assert (is_upper (c - 32) = true) as -> by (apply is_upper_range; lia).
  assert (is_upper c = false) as ->; [|lia].
  apply not_true_is_false. rewrite is_upper_range. lia.
Qed.

End case.

(** X1: on a handle that holds a buffer, [str_to_upper] returns 0; each
    lower-case ASCII letter of the content is replaced by the byte 32
    below it and every other byte is kept; the terminator and what lies
    behind it are not touched. *)
Theorem to_upper_content (s : Str) (d : list Z) :
  data s = Some d →
  ∃ d', str_to_upper (Some s) = (0%Z, Some (set_data s (Some d')))
    ∧ cstr d' = upper <$> cstr d
    ∧ drop (strlen d) d' = drop (strlen d) d
    ∧ length d' = length d.
Proof.
  intros Hs. exists (to_upper_loop d).
  unfold str_to_upper. rewrite Hs. split; [done|].
  rewrite to_upper_loop_block.
  destruct (cstr_mapped upper d upper_nonzero) as (_ & Hc & Hd).
  split; [done|]. split; [done|].
  rewrite length_app, length_fmap, length_cstr, length_drop.
  pose proof (strlen_le d). lia.
Qed.

Lemma to_upper_content_witness :
  ∃ d', str_to_upper (Some {| data := Some (lit "a1-Zz {"); is_dynamic := true |})
        = (0%Z, Some (set_data {| data := Some (lit "a1-Zz {"); is_dynamic := true |}
                        (Some d')))
    ∧ cstr d' = upper <$> cstr (lit "a1-Zz {")
    ∧ drop (strlen (lit "a1-Zz {")) d' = drop (strlen (lit "a1-Zz {")) (lit "a1-Zz {")
    ∧ length d' = length (lit "a1-Zz {").
Proof.
  apply (to_upper_content {| data := Some (lit "a1-Zz {"); is_dynamic := true |}
           (lit "a1-Zz {")).
  reflexivity.
Defined.

(** X2: on a handle that holds a buffer, [str_to_lower] returns 0; each
    upper-case ASCII letter of the content is replaced by the byte 32
    above it and every other byte is kept; the terminator and what lies
    behind it are not touched. *)
Theorem to_lower_content (s : Str) (d : list Z) :
  data s = Some d →
  ∃ d', str_to_lower (Some s) = (0%Z, Some (set_data s (Some d')))
    ∧ cstr d' = lower <$> cstr d
    ∧ drop (strlen d) d' = drop (strlen d) d
    ∧ length d' = length d.
Proof.
  intros Hs. exists (to_lower_loop d).
  unfold str_to_lower. rewrite Hs. split; [done|].
  rewrite to_lower_loop_block.
  destruct (cstr_mapped lower d lower_nonzero) as (_ & Hc & Hd).
  split; [done|]. split; [done|].
  rewrite length_app, length_fmap, length_cstr, length_drop.
  pose proof (strlen_le d). lia.
Qed.

Lemma to_lower_content_witness :
  ∃ d', str_to_lower (Some {| data := Some (lit "a1-Zz {"); is_dynamic := true |})
        = (0%Z, Some (set_data {| data := Some (lit "a1-Zz {"); is_dynamic := true |}
                        (Some d')))
    ∧ cstr d' = lower <$> cstr (lit "a1-Zz {")
    ∧ drop (strlen (lit "a1-Zz {")) d' = drop (strlen (lit "a1-Zz {")) (lit "a1-Zz {")
    ∧ length d' = length (lit "a1-Zz {").
Proof.
  apply (to_lower_content {| data := Some (lit "a1-Zz {"); is_dynamic := true |}
           (lit "a1-Zz {")).
  reflexivity.
Defined.

(** X3: [str_to_upper] is idempotent, and [str_to_lower] after
    [str_to_upper] gives what [str_to_lower] alone gives, status and
    handle, whatever the handle. *)
Theorem upper_then_lower (self : option Str) :
  str_to_upper (str_to_upper self).2 = str_to_upper self
  ∧ str_to_lower (str_to_upper self).2 = str_to_lower self.
Proof.
  unfold str_to_upper, str_to_lower.
  destruct self as [s|]; [|done]. destruct (data s) as [d|] eqn:Hs; simpl.
  - rewrite !to_upper_loop_block, !to_lower_loop_block.
    destruct (cstr_mapped upper d upper_nonzero) as (Hl & Hc & Hd).
    rewrite Hl, Hc, Hd. rewrite <- !list_fmap_compose.
    assert (upper ∘ upper <$> cstr d = upper <$> cstr d) as ->
      by (apply list_fmap_ext; intros i c _; apply upper_upper).
    assert (lower ∘ upper <$> cstr d = lower <$> cstr d) as ->
      by (apply list_fmap_ext; intros i c _; apply lower_upper).
    done.
  - by rewrite Hs.
Qed.

(** ** Cutting behind a separator, removing a word *)

Section cutting.
Implicit Types (s : Str) (d pre suf r : list Z) (h : Allocator).

Lemma resize_terminated d j :
  terminated d → resize (strlen d + 1) j d = cstr d ++ [0%Z].
Proof.
  intros (c & r & -> & Hc)%terminated_inv.
  by rewrite strlen_string, cstr_string, resize_exact.
Qed.

(** [strrchr] returns the offset of the last occurrence. *)
Lemma strrchr_last pre sep suf r :
  text pre → text suf → sep ≠ 0%Z → sep ∉ suf →
  strrchr (pre ++ sep :: suf ++ 0%Z :: r) sep = Some (length pre).
Proof.
  intros Hpre Hsuf Hsep Hnotin.
  assert (strrchr (suf ++ 0%Z :: r) sep = None) as Hnone.
  { apply strrchr_none; [done|]. by rewrite cstr_string. }
  induction Hpre as [|x pre Hx _ IH]; simpl.
  - destruct (Z.eqb_spec sep 0); [done|]. rewrite Hnone.
    by rewrite Z.eqb_refl.
  - destruct (Z.eqb_spec x 0); [done|]. by rewrite IH.
Qed.

(** What [strrchr] finds lies inside the string or is its terminator. *)
Lemma strrchr_bound d sep p :
  strrchr d sep = Some p → p ≤ strlen d ∧ (sep ≠ 0%Z → p < strlen d).
Proof.
  revert p. induction d as [|x d IH]; intros p; simpl; [done|].
  destruct (Z.eqb_spec x 0).
  - destruct (Z.eqb_spec sep 0); [|done]. intros [= <-]. split; [lia|done].
  - destruct (strrchr d sep) as [i|].
    + intros [= <-]. destruct (IH i eq_refl) as [H1 H2].
      split; [lia|]. intros H. specialize (H2 H). lia.
    + destruct (Z.eqb_spec x sep); [|done]. intros [= <-]. split; lia.
Qed.

(** A zero stored at or before the terminator leaves a terminated
    block. *)
Lemma store_zero_terminated d i :
  terminated d → i ≤ strlen d → terminated (<[i := 0%Z]> d).
Proof.
  unfold terminated. revert i. induction d as [|x d IH]; intros i; simpl; [lia|].
  destruct i as [|i]; simpl; [lia|].
  destruct (Z.eqb_spec x 0); simpl; [lia|].
  intros H1 H2. specialize (IH i). rewrite length_insert in *. lia.
Qed.

Lemma str_pop_back_block s d pre sep suf h j h' :
  data s = Some d → terminated d →
  cstr d = pre ++ sep :: suf → sep ≠ 0%Z → sep ∉ suf →
  request h = (Some j, h') →
  str_pop_back (Some s) sep h
  = (0%Z, Some (set_data s (Some (pre ++ [sep; 0%Z]))), h').
Proof.
  intros Hs Hd Hc Hsep Hnotin Hreq.
  pose proof (cstr_text d) as Ht. rewrite Hc in Ht.
  apply text_app in Ht as [Hpre Hsuf]. apply Forall_cons in Hsuf as [_ Hsuf].
  apply terminated_split in Hd. rewrite Hc in Hd.
  set (r := drop (S (strlen d)) d) in Hd.
  assert (strlen d = length pre + S (length suf)) as Hlen
    by (rewrite <- (length_cstr d), Hc, length_app; done).
  unfold str_pop_back. rewrite Hs, decide_False by lia.
  rewrite Hd at 1. rewrite <- app_assoc. simpl.
  rewrite strrchr_last by done.
  assert (<[S (length pre) := 0%Z]> d = (pre ++ [sep]) ++ 0%Z :: drop 1 (suf ++ 0%Z :: r))
    as ->.
  { rewrite Hd, <- app_assoc. simpl.
    rewrite (cons_middle sep pre), app_assoc.
    replace (S (length pre)) with (length (pre ++ [sep]))
      by (rewrite length_app; simpl; lia).
    destruct suf; simpl; by rewrite store_middle. }
  assert (text (pre ++ [sep])) as Hps.
  { apply text_app. split; [done|]. by repeat constructor. }
  rewrite strlen_string by done.
  rewrite (realloc_granted _ _ _ _ _ Hreq), resize_exact.
  by rewrite <- app_assoc.
Qed.

(** [poke] in a block large enough, in terms of what is kept. *)
Lemma poke_inside (b : list Z) i vs :
  i + length vs ≤ length b →
  poke b i vs = take i b ++ vs ++ drop (i + length vs) b.
Proof.
  intros H.
  pose proof (poke_middle (take i b) (take (length vs) (drop i b))
                (drop (length vs) (drop i b)) vs) as P.
  rewrite !take_drop, drop_drop in P.
  rewrite (length_take_le b i) in P by lia.
  apply P. rewrite length_take, length_drop. lia.
Qed.

Lemma str_rem_word_block s d (needle : list Z) pre suf h j h' :
  data s = Some d → terminated d →
  cstr d = pre ++ cstr needle ++ suf →
  strstr d needle = Some (length pre) →
  request h = (Some j, h') →
  str_rem_word (Some s) (Some needle) h
  = (0%Z, Some (set_data s (Some (pre ++ suf ++ [0%Z]))), h').
Proof.
  intros Hs Hd Hc Hfind Hreq.
  pose proof (cstr_text d) as Ht. rewrite Hc in Ht.
  apply text_app in Ht as [Hpre [_ Hsuf]%text_app].
  apply terminated_split in Hd. rewrite Hc in Hd.
  set (r := drop (S (strlen d)) d) in Hd. clearbody r.
  rewrite <- !app_assoc in Hd.
  assert (strlen d = length pre + strlen needle + length suf) as Hlen.
  { rewrite <- (length_cstr d), Hc, !length_app, length_cstr. lia. }
  unfold str_rem_word. rewrite Hs, Hfind, decide_False by lia. cbv zeta.
  rewrite Hlen.
  replace (length pre + strlen needle + length suf - length pre - strlen needle + 1)
    with (length suf + 1) by lia.
  replace (length pre + strlen needle + length suf - strlen needle)
    with (length (pre ++ suf)) by (rewrite length_app; lia).
  assert (memmove d (length pre) (length pre + strlen needle) (length suf + 1)
          = (pre ++ suf) ++ 0%Z :: drop (length suf + 1) (cstr needle ++ suf ++ 0%Z :: r))
    as ->.
  { unfold memmove.
    assert (drop (length pre + strlen needle) d = suf ++ 0%Z :: r) as ->.
    { rewrite Hd. rewrite (app_assoc pre (cstr needle)).
      apply drop_app_length'. rewrite length_app, length_cstr. done. }
    assert (take (length suf + 1) (suf ++ 0%Z :: r) = suf ++ [0%Z]) as ->.
    { rewrite (cons_middle 0%Z suf r), app_assoc.
      apply take_app_length'. rewrite length_app. simpl. lia. }
    assert (length d = length pre + strlen needle + length suf + 1 + length r) as Hld.
    { rewrite Hd at 1. repeat rewrite length_app. simpl. rewrite length_cstr. lia. }
    rewrite poke_inside by (rewrite length_app; simpl; lia).
    assert (take (length pre) d = pre) as -> by (rewrite Hd; apply take_app_length).
    assert (drop (length pre + length (suf ++ [0%Z])) d
            = drop (length suf + 1) (cstr needle ++ suf ++ 0%Z :: r)) as ->.
    { rewrite Hd at 1. rewrite length_app. simpl. by rewrite drop_app_add'. }
    by rewrite <- !app_assoc. }
  rewrite store_middle.
  rewrite (realloc_granted _ _ _ _ _ Hreq).
  assert (text (pre ++ suf)) as Hps by (apply text_app; done).
  rewrite resize_exact. by rewrite <- app_assoc.
Qed.

(** The offset [find_from] returns is not behind any occurrence. *)
Lemma find_from_minimal n hay k :
  find_from n hay = Some k →
  ∀ pre' suf', hay = pre' ++ n ++ suf' → k ≤ length pre'.
Proof.
  revert k. induction hay as [|x hay IH]; intros k.
  - destruct n; simpl; [|done]. intros [= <-]. lia.
  - cbn [find_from]. destruct (starts_with n (x :: hay)) eqn:E.
    + intros [= <-]. lia.
    + destruct (find_from n hay) as [k'|] eqn:F; [|done].
      intros [= <-] pre' suf' Hocc.
      destruct pre' as [|y pre'].
      * simpl in Hocc. rewrite Hocc, starts_with_app in E. done.
      * injection Hocc as -> Hocc. simpl.
        specialize (IH k' eq_refl pre' suf' Hocc). lia.
Qed.

End cutting.

(** X4: when the content is [pre ++ sep :: suf] with a non-zero [sep]
    that does not occur in [suf], [str_pop_back] (its [realloc] granted)
    returns 0 and leaves [pre ++ [sep]]: everything behind the last
    separator is cut, the separator is kept, and the buffer is trimmed to
    that text and its terminator. *)
Theorem pop_back_cut (s : Str) (d pre suf : list Z) (sep : Z)
    (h h' : Allocator) (j : Z) :
  data s = Some d → terminated d →
  cstr d = pre ++ sep :: suf → sep ≠ 0%Z → sep ∉ suf →
  request h = (Some j, h') →
  ∃ d', str_pop_back (Some s) sep h = (0%Z, Some (set_data s (Some d')), h')
    ∧ cstr d' = pre ++ [sep]
    ∧ length d' = length pre + 2.
Proof.
  intros Hs Hd Hc Hsep Hnotin Hreq. exists (pre ++ [sep; 0%Z]).
  split; [by eapply str_pop_back_block|].
  assert (text (pre ++ [sep])) as Ht.
  { pose proof (cstr_text d) as Ht. rewrite Hc in Ht.
    apply text_app in Ht as [Hpre _]. apply text_app. split; [done|].
    by repeat constructor. }
  replace (pre ++ [sep; 0%Z]) with ((pre ++ [sep]) ++ [0%Z])
    by by rewrite <- app_assoc.
  split; [by apply cstr_string|]. rewrite !length_app. simpl. lia.
Qed.

Lemma pop_back_cut_witness :
  ∃ d', str_pop_back (Some {| data := Some (lit "/usr/local/bin"); is_dynamic := true |})
          47 []
        = (0%Z, Some (set_data {| data := Some (lit "/usr/local/bin");
                                  is_dynamic := true |} (Some d')), [])
    ∧ cstr d' = bytes "/usr/local" ++ [47%Z]
    ∧ length d' = length (bytes "/usr/local") + 2.
Proof.
  apply (pop_back_cut {| data := Some (lit "/usr/local/bin"); is_dynamic := true |}
           (lit "/usr/local/bin") (bytes "/usr/local") (bytes "bin") 47 [] [] 0%Z).
  - reflexivity.
  - unfold terminated. vm_compute. lia.
  - reflexivity.
  - lia.
  - vm_compute. intros H. repeat (apply elem_of_cons in H as [H|H]; [lia|]).
    by apply elem_of_nil in H.
  - reflexivity.
Defined.

(** X5: when the content is [pre ++ needle ++ suf] and the needle does
    not occur earlier, [str_rem_word] (its [realloc] granted) returns 0
    and leaves [pre ++ suf] in an exactly sized buffer: the first
    occurrence is cut out, later ones stay, and [str_get_size] drops by
    the length of the needle. *)
Theorem rem_word_first (s : Str) (d needle pre suf : list Z)
    (h h' : Allocator) (j : Z) :
  data s = Some d → terminated d →
  cstr d = pre ++ cstr needle ++ suf →
  (∀ pre' suf', cstr d = pre' ++ cstr needle ++ suf' → length pre ≤ length pre') →
  request h = (Some j, h') →
  str_rem_word (Some s) (Some needle) h
  = (0%Z, Some (set_data s (Some (pre ++ suf ++ [0%Z]))), h')
  ∧ content (Some (set_data s (Some (pre ++ suf ++ [0%Z])))) = Some (pre ++ suf)
  ∧ str_get_size (Some (set_data s (Some (pre ++ suf ++ [0%Z]))))
    = strlen d - strlen needle.
Proof.
  intros Hs Hd Hc Hmin Hreq.
  split.
  { apply (str_rem_word_block s d needle pre suf h j h'); try done.
    unfold strstr. by apply (find_from_first _ _ pre suf). }
  assert (text (pre ++ suf)) as Ht.
  { pose proof (cstr_text d) as Ht. rewrite Hc in Ht.
    apply text_app in Ht as [Hpre [_ Hsuf]%text_app]. by apply text_app. }
  unfold content, str_get_size. simpl. rewrite app_assoc.
  rewrite cstr_string, strlen_string by done. split; [done|].
  rewrite <- (length_cstr d), Hc, !length_app, length_cstr. lia.
Qed.

Lemma rem_word_first_witness :
  str_rem_word (Some {| data := Some (lit "a w1 b w1"); is_dynamic := false |})
    (Some (lit "w1")) []
  = (0%Z, Some {| data := Some (lit "a  b w1"); is_dynamic := false |}, [])
  ∧ content (Some {| data := Some (lit "a  b w1"); is_dynamic := false |})
    = Some (bytes "a  b w1")
  ∧ str_get_size (Some {| data := Some (lit "a  b w1"); is_dynamic := false |}) = 9 - 2.
Proof.
  apply (rem_word_first {| data := Some (lit "a w1 b w1"); is_dynamic := false |}
           (lit "a w1 b w1") (lit "w1") (bytes "a ") (bytes " b w1") [] [] 0%Z).
  - reflexivity.
  - unfold terminated. vm_compute. lia.
  - reflexivity.
  - intros [|x [|y pre']] suf'; vm_compute; intros E; (discriminate || lia).
  - reflexivity.
Defined.

(** X6: an empty old word is found at offset 0, so [str_swap_word] on a
    heap-owned handle (its [malloc] granted) puts the new word in front
    of the whole content. *)
Theorem swap_empty_word (s : Str) (d word1 word2 : list Z)
    (h h' : Allocator) (j : Z) :
  data s = Some d → is_dynamic s = true → strlen word1 = 0 →
  request h = (Some j, h') →
  str_swap_word (Some s) (Some word1) (Some word2) h
  = (0%Z, Some (set_data s (Some (cstr word2 ++ cstr d ++ [0%Z]))), h').
Proof.
  intros Hs Hdyn Hw Hreq.
  assert (cstr word1 = []) as Hempty by (unfold cstr; by rewrite Hw).
  apply (str_swap_word_ok s d word1 word2 [] (cstr d) h j h'); try done.
  - by rewrite Hempty.
  - intros; simpl; lia.
Qed.

Lemma swap_empty_word_witness :
  str_swap_word (Some {| data := Some (lit "bc"); is_dynamic := true |})
    (Some (lit "")) (Some (lit "a")) []
  = (0%Z, Some {| data := Some (lit "abc"); is_dynamic := true |}, []).
Proof.
  apply (swap_empty_word {| data := Some (lit "bc"); is_dynamic := true |}
           (lit "bc") (lit "") (lit "a") [] [] 0%Z).
  - reflexivity.
  - reflexivity.
  - reflexivity.
  - reflexivity.
Defined.

Lemma add_refused_keeps_aux (s : Str) (d : list Z) (h h' : Allocator) :
  request h = (None, h') →
  str_add (Some s) (Some d) h
  = (match data s with Some _ => (- ENOMEM)%Z | None => (-1)%Z end, Some s, h').
Proof.
  intros Hreq. unfold str_add. destruct (data s) as [buf|] eqn:Hs.
  - by rewrite (realloc_refused _ _ _ _ Hreq).
  - rewrite (malloc_refused _ _ _ Hreq). by rewrite <- Hs, set_data_same.
Qed.

(** X7: when the allocator refuses, [str_add] fails and the handle keeps
    what it held: status [-ENOMEM] and the old buffer when there was
    content, status -1 and still no buffer when there was none. *)
Theorem add_refused_keeps (s : Str) (d : list Z) (h h' : Allocator) :
  request h = (None, h') →
  str_add (Some s) (Some d) h
  = (match data s with Some _ => (- ENOMEM)%Z | None => (-1)%Z end, Some s, h').
Proof.
  apply add_refused_keeps_aux.
Qed.

Lemma add_refused_keeps_witness :
  str_add (Some {| data := Some (lit "abc"); is_dynamic := true |}) (Some (lit "def"))
    [None; Some 1%Z]
  = ((- ENOMEM)%Z, Some {| data := Some (lit "abc"); is_dynamic := true |}, [Some 1%Z]).
Proof.
  apply (add_refused_keeps {| data := Some (lit "abc"); is_dynamic := true |}
           (lit "def") [None; Some 1%Z] [Some 1%Z]).
  reflexivity.
Defined.

(** X8: a cleared handle is as good as new: whatever it held,
    [str_clear] followed by [str_add] (its [malloc] granted) leaves
    exactly the added string, in an exactly sized buffer. *)
Theorem clear_then_add (s : Str) (d : list Z) (h h' : Allocator) (j : Z) :
  request h = (Some j, h') →
  str_add (str_clear (Some s)) (Some d) h
  = (0%Z, Some (set_data s (Some (cstr d ++ [0%Z]))), h')
  ∧ str_is_empty (str_clear (Some s)) = true
  ∧ str_clear (str_clear (Some s)) = str_clear (Some s).
Proof.
  intros Hreq. split; [|done].
  change (str_clear (Some s)) with (Some (set_data s None)).
  by rewrite (str_add_empty (set_data s None) d h j h' eq_refl Hreq).
Qed.

Lemma clear_then_add_witness :
  str_add (str_clear (Some {| data := Some (lit "old"); is_dynamic := false |}))
    (Some (lit "new")) []
  = (0%Z, Some {| data := Some (lit "new"); is_dynamic := false |}, [])
  ∧ str_is_empty (str_clear (Some {| data := Some (lit "old"); is_dynamic := false |}))
    = true
  ∧ str_clear (str_clear (Some {| data := Some (lit "old"); is_dynamic := false |}))
    = str_clear (Some {| data := Some (lit "old"); is_dynamic := false |}).
Proof.
  apply (clear_then_add {| data := Some (lit "old"); is_dynamic := false |}
           (lit "new") [] [] 0%Z).
  reflexivity.
Defined.

(** ** The exact-size invariant *)

Section invariant.
Implicit Types (s : Str) (d c t : list Z) (h : Allocator).

Lemma exact_intro s t : text t → exact (Some (set_data s (Some (t ++ [0%Z])))).
Proof. intros Ht s' d' [= <-] [= <-]. by exists t. Qed.

Lemma exact_absent s : data s = None → exact (Some s).
Proof. intros Hs s' d' [= <-] Hd. congruence. Qed.

Lemma find_from_occurrence n hay k :
  find_from n hay = Some k → ∃ pre suf, hay = pre ++ n ++ suf ∧ length pre = k.
Proof.
  revert k. induction hay as [|x hay IH]; intros k.
  - destruct n; simpl; [|done]. intros [= <-]. by exists [], [].
  - cbn [find_from]. destruct (starts_with n (x :: hay)) eqn:E.
    + intros [= <-]. apply starts_with_inv in E as (suf & E). by exists [], suf.
    + destruct (find_from n hay) as [k'|] eqn:F; [|done].
      intros [= <-]. destruct (IH k' eq_refl) as (pre & suf & -> & <-).
      by exists (x :: pre), suf.
Qed.

Lemma title_loop_text flag t r :
  text t →
  ∃ t', title_loop flag (t ++ 0%Z :: r) = t' ++ 0%Z :: r
        ∧ text t' ∧ length t' = length t.
Proof.
  intros Ht. revert flag. induction Ht as [|x t Hx _ IH]; intros flag.
  - exists []. split; [done|]. split; [constructor|done].
  - simpl. destruct (Z.eqb_spec x 0); [done|].
    destruct (flag && is_lower x) eqn:E.
    + destruct (IH false) as (t' & -> & Ht' & Hl).
      exists (clear_bit5 x :: t'). split; [done|]. split; [|simpl; lia].
      constructor; [|done]. apply andb_prop in E as [_ E].
      rewrite clear_bit5_lower by done. apply is_lower_range in E. lia.
    + destruct (x =? 32)%Z.
      * destruct (IH true) as (t' & -> & Ht' & Hl).
        exists (x :: t'). split; [done|]. split; [by constructor|simpl; lia].
      * destruct (IH flag) as (t' & -> & Ht' & Hl).
        exists (x :: t'). split; [done|]. split; [by constructor|simpl; lia].
Qed.

End invariant.

(** X9: every successful call other than the two that read the input
    keeps the buffer exactly sized: if the handle holds nothing or a text
    followed by its terminator and nothing else, then so it does after
    [str_add], [str_pop_back] (non-zero separator), [str_rem_word],
    [str_swap_word], [str_to_upper], [str_to_lower], [str_to_title_case]
    and [str_reverse] returning 0. *)
Theorem exact_kept (c : call) (self self' : option Str) (input input' : Stdin)
    (h h' : Allocator) :
  exact self → c ≠ Input → c ≠ AddInput → c ≠ PopBack 0 →
  run c self input h = (0%Z, self', input', h') →
  exact self'.
Proof.
  intros Hex Hc1 Hc2 Hc3 Hrun.
  destruct self as [s|]; last first.
  { destruct c; cbn in Hrun; discriminate || done. }
  destruct (data s) as [d|] eqn:Hs; last first.
  { destruct c; try done.
    - cbn [run] in Hrun. destruct _data as [a|]; [|discriminate].
      destruct (request_cases h) as [(j & h1 & Hreq)|(h1 & Hreq & _)].
      + rewrite (str_add_empty _ _ _ _ _ Hs Hreq) in Hrun.
        injection Hrun as <- _ _. apply exact_intro, cstr_text.
      + unfold str_add in Hrun. rewrite Hs, (malloc_refused _ _ _ Hreq) in Hrun.
        discriminate.
    - by rewrite (absent_content_fails (PopBack sep) s input h Hs) in Hrun.
    - by rewrite (absent_content_fails (RemWord needle) s input h Hs) in Hrun.
    - by rewrite (absent_content_fails (SwapWord word1 word2) s input h Hs) in Hrun.
    - by rewrite (absent_content_fails ToUpper s input h Hs) in Hrun.
    - by rewrite (absent_content_fails ToLower s input h Hs) in Hrun.
    - by rewrite (absent_content_fails ToTitleCase s input h Hs) in Hrun.
    - by rewrite (absent_content_fails Reverse s input h Hs) in Hrun. }
  destruct (Hex s d eq_refl Hs) as (t & Ht & ->).
  assert (terminated (t ++ [0%Z])) as Hterm by by apply string_terminated.
  assert (strlen (t ++ [0%Z]) = length t) as Hlen by by apply strlen_string.
  assert (cstr (t ++ [0%Z]) = t) as Hcstr by by apply cstr_string.
  destruct c; try done; cbn [run] in Hrun.
  - (* str_add *)
    destruct _data as [a|]; [|discriminate].
    destruct (request_cases h) as [(j & h1 & Hreq)|(h1 & Hreq & _)].
    + rewrite (str_add_more _ _ _ _ _ _ Hs Hterm Hreq) in Hrun.
      injection Hrun as <- _ _. rewrite Hcstr, app_assoc.
      apply exact_intro, text_app. split; [done|apply cstr_text].
    + rewrite (add_refused_keeps_aux s a h h1 Hreq), Hs in Hrun. discriminate.
  - (* str_pop_back *)
    unfold str_pop_back in Hrun. rewrite Hs in Hrun.
    destruct (decide _); [discriminate|].
    destruct (strrchr (t ++ [0%Z]) sep) as [p|] eqn:Hp; [|discriminate].
    assert (sep ≠ 0%Z) as Hsep by (intros ->; done).
    destruct (strrchr_bound _ _ _ Hp) as [_ Hlt]. specialize (Hlt Hsep).
    pose proof (store_zero_terminated (t ++ [0%Z]) (S p) Hterm ltac:(lia)) as Hterm'.
    destruct (request_cases h) as [(j & h1 & Hreq)|(h1 & Hreq & _)].
    + rewrite (realloc_granted _ _ _ _ _ Hreq) in Hrun.
      rewrite resize_terminated in Hrun by done.
      injection Hrun as <- _ _. apply exact_intro, cstr_text.
    + rewrite (realloc_refused _ _ _ _ Hreq) in Hrun. discriminate.
  - (* str_rem_word *)
    destruct needle as [n|]; [|unfold str_rem_word in Hrun; rewrite Hs in Hrun; done].
    destruct (strstr (t ++ [0%Z]) n) as [L|] eqn:HL; last first.
    { unfold str_rem_word in Hrun. rewrite Hs, HL in Hrun.
      destruct (decide _); discriminate. }
    pose proof HL as HL'. unfold strstr in HL'.
    apply find_from_occurrence in HL' as (pre & suf & Hocc & <-).
    destruct (request_cases h) as [(j & h1 & Hreq)|(h1 & Hreq & _)].
    + rewrite (str_rem_word_block s _ n pre suf h j h1 Hs Hterm Hocc HL Hreq) in Hrun.
      injection Hrun as <- _ _. rewrite app_assoc. apply exact_intro.
      rewrite Hcstr in Hocc. rewrite Hocc in Ht.
      apply text_app in Ht as [? [_ ?]%text_app]. by apply text_app.
    + unfold str_rem_word in Hrun. rewrite Hs, HL in Hrun.
      destruct (decide _); [discriminate|].
      rewrite (realloc_refused _ _ _ _ Hreq) in Hrun. discriminate.
  - (* str_swap_word *)
    destruct (is_dynamic s) eqn:Hdyn; last first.
    { by rewrite (str_swap_word_stack s word1 word2 h Hdyn) in Hrun. }
    destruct word1 as [w1|];
      [|unfold str_swap_word in Hrun; rewrite Hs, Hdyn in Hrun; done].
    destruct word2 as [w2|];
      [|unfold str_swap_word in Hrun; rewrite Hs, Hdyn in Hrun; done].
    destruct (strstr (t ++ [0%Z]) w1) as [L|] eqn:HL; last first.
    { unfold str_swap_word in Hrun. rewrite Hs, Hdyn, HL in Hrun. discriminate. }
    pose proof HL as HL'. unfold strstr in HL'.
    pose proof (find_from_minimal _ _ _ HL') as Hmin.
    apply find_from_occurrence in HL' as (pre & suf & Hocc & <-).
    destruct (request_cases h) as [(j & h1 & Hreq)|(h1 & Hreq & _)].
    + rewrite (str_swap_word_ok s _ w1 w2 pre suf h j h1 Hs Hdyn Hocc Hmin Hreq) in Hrun.
      injection Hrun as <- _ _. rewrite !app_assoc. apply exact_intro.
      rewrite Hcstr in Hocc. rewrite Hocc in Ht.
      apply text_app in Ht as [? [_ ?]%text_app].
      apply text_app. split; [|done]. apply text_app. split; [done|apply cstr_text].
    + unfold str_swap_word in Hrun. rewrite Hs, Hdyn, HL in Hrun.
      rewrite (malloc_refused _ _ _ Hreq) in Hrun. discriminate.
  - (* str_to_upper *)
    unfold str_to_upper in Hrun. rewrite Hs in Hrun. injection Hrun as <- _ _.
    rewrite to_upper_loop_block, Hcstr, Hlen, drop_app_length.
    apply exact_intro, text_fmap; [apply upper_nonzero|done].
  - (* str_to_lower *)
    unfold str_to_lower in Hrun. rewrite Hs in Hrun. injection Hrun as <- _ _.
    rewrite to_lower_loop_block, Hcstr, Hlen, drop_app_length.
    apply exact_intro, text_fmap; [apply lower_nonzero|done].
  - (* str_to_title_case *)
    unfold str_to_title_case in Hrun. rewrite Hs in Hrun.
    destruct (decide _); [discriminate|]. injection Hrun as <- _ _.
    destruct (title_loop_text true t [] Ht) as (t' & -> & Ht' & _).
    by apply exact_intro.
  - (* str_reverse *)
    destruct (decide (strlen (t ++ [0%Z]) = 0)) as [He|Hne].
    { unfold str_reverse in Hrun. rewrite Hs, decide_True in Hrun by done.
      discriminate. }
    rewrite (str_reverse_ok s _ Hs Hne) in Hrun. injection Hrun as <- _ _.
    rewrite Hcstr, Hlen, drop_app_length.
    apply exact_intro. by apply Forall_reverse.
Qed.

Lemma exact_kept_witness :
  exact (run (PopBack 47) (Some {| data := Some (lit "a/b"); is_dynamic := true |})
           [] []).1.1.2.
Proof.
  apply (exact_kept (PopBack 47)
           (Some {| data := Some (lit "a/b"); is_dynamic := true |}) _ [] [] [] []).
  - intros s d [= <-] [= <-]. exists (bytes "a/b").
    split; [repeat constructor; done|reflexivity].
  - discriminate.
  - discriminate.
  - discriminate.
  - reflexivity.
Defined.

(** ** Reading into a handle *)

Section reading_more.
Implicit Types (input : Stdin) (h : Allocator) (s : Str) (t : list Z).

(** A successful read: the result, the input left and the allocator. *)
Lemma get_dyn_input_reads max_str_size input h :
  generous h → text (line input) →
  (Z.of_nat (length (line input)) + 20 ≤ SIZE_MAX)%Z →
  ¬ (line input ≠ []
     ∧ (size_t (max_str_size - 1) ≤ capacity (length (line input)))%Z) →
  ∃ h', get_dyn_input max_str_size input h
        = (Some (line input ++ [0%Z]), after_line input, h')
        ∧ generous h'.
Proof.
  intros Hh Htext Hmax Hfits. unfold get_dyn_input.
  destruct (generous_request h Hh) as (j0 & h0 & Hreq0 & Hh0).
  rewrite (calloc_granted _ _ _ _ Hreq0).
  pose proof (get_dyn_input_loop_spec max_str_size input h0
                (replicate (Z.to_nat CHUNK_SIZE) 0%Z) [] (replicate 9 0%Z)
                eq_refl eq_refl Hh0 Hmax) as Hloop.
  change (capacity (length [])) with CHUNK_SIZE in Hloop.
  change (Z.of_nat (length [])) with 0%Z in Hloop.
  cbn [length Nat.add app] in Hloop.
  destruct (get_dyn_input_loop max_str_size input h0 _ _ _)
    as [[[[b len]|] input'] h1]; [|done].
  destruct Hloop as (_ & -> & (rest' & ->) & -> & Hh1).
  destruct (generous_request h1 Hh1) as (j1 & h2 & Hreq1 & Hh2).
  rewrite (malloc_granted _ _ _ _ Hreq1).
  exists h2. split; [|done].
  rewrite size_t_small by lia.
  replace (Z.to_nat (Z.of_nat (length (line input)) + 1))
    with (length (line input) + 1) by lia.
  rewrite strlen_string by done.
  unfold strncpy. rewrite cstr_string by done.
  rewrite take_app_length.
  rewrite replicate_add. simpl replicate.
  rewrite poke_front by apply length_replicate.
  by rewrite store_middle.
Qed.

Lemma max_string_size_range :
  (20 < MAX_STRING_SIZE ∧ MAX_STRING_SIZE + 20 ≤ SIZE_MAX)%Z.
Proof. by vm_compute. Qed.

(** The loop never consumes a newline on the way to NULL: it returns
    right behind the byte at which it gave up. *)
Lemma get_dyn_input_loop_gives_up max_str_size : ∀ input h buffer cs len input' h',
  get_dyn_input_loop max_str_size input h buffer cs len = (None, input', h') →
  ∃ k, k < length (line input) ∧ input' = drop (S k) input.
Proof.
  induction input as [|c input IH]; intros h buffer cs len input' h'; [done|].
  cbn [get_dyn_input_loop line].
  destruct (Z.eqb_spec c 10); [done|].
  destruct (if (cs <=? size_t (len + 1))%Z then _ else _) as [[[b cs']|] h1].
  - destruct (size_t (max_str_size - 1) <=? cs')%Z.
    + intros [= <- <-]. exists 0. simpl. split; [lia|done].
    + intros (k & Hk & ->)%IH. exists (S k). simpl. split; [lia|done].
  - intros [= <- <-]. exists 0. simpl. split; [lia|done].
Qed.

Lemma get_dyn_input_loop_generous max_str_size : ∀ input h buffer cs len r input' h',
  get_dyn_input_loop max_str_size input h buffer cs len = (r, input', h') →
  generous h → generous h'.
Proof.
  induction input as [|c input IH]; intros h buffer cs len r input' h'.
  { by intros [= <- <- <-]. }
  cbn [get_dyn_input_loop].
  destruct (c =? 10)%Z; [by intros [= <- <- <-]|].
  destruct (cs <=? size_t (len + 1))%Z.
  - intros Hrun Hh. destruct (generous_request h Hh) as (j & h1 & Hreq & Hh1).
    rewrite (realloc_granted _ _ _ _ _ Hreq) in Hrun.
    destruct (size_t (max_str_size - 1) <=? _)%Z.
    + by injection Hrun as <- <- <-.
    + by eapply IH.
  - destruct (size_t (max_str_size - 1) <=? cs)%Z.
    + by intros [= <- <- <-].
    + apply IH.
Qed.

(** Dropping bytes of the line leaves the rest of the line and what
    follows it. *)
Lemma line_drop k : ∀ input,
  k ≤ length (line input) →
  line (drop k input) = drop k (line input)
  ∧ after_line (drop k input) = after_line input.
Proof.
  induction k as [|k IH]; intros input; [done|].
  destruct input as [|c input]; simpl; [lia|].
  destruct (c =? 10)%Z; simpl; [lia|].
  intros H. apply IH. lia.
Qed.

End reading_more.

(** X10: on a handle without content, with an allocator that grants
    every request and a line without zero byte that is at least 20 bytes
    shorter than [MAX_STRING_SIZE], [str_input] returns 0, stores the line
    in an exactly sized buffer and leaves the input right behind the
    newline. *)
Theorem str_input_line (s : Str) (input : Stdin) (h : Allocator) :
  data s = None → generous h → text (line input) →
  (Z.of_nat (length (line input)) + 20 ≤ MAX_STRING_SIZE)%Z →
  ∃ h', str_input (Some s) input h
        = (0%Z, Some (set_data s (Some (line input ++ [0%Z]))), after_line input, h').
Proof.
  intros Hs Hh Htext Hmax.
  pose proof max_string_size_range as [HM1 HM2].
  pose proof (capacity_room (length (line input))) as [_ Hcap].
  destruct (get_dyn_input_reads MAX_STRING_SIZE input h Hh Htext) as (h' & Hr & _).
  - lia.
  - rewrite size_t_small by lia. intros [_ Hle]. lia.
  - exists h'. unfold str_input. rewrite Hs, Hr. done.
Qed.

Lemma str_input_line_witness :
  ∃ h', str_input (Some {| data := None; is_dynamic := true |})
          (bytes "first" ++ 10%Z :: bytes "second") []
        = (0%Z, Some (set_data {| data := None; is_dynamic := true |}
                        (Some (line (bytes "first" ++ 10%Z :: bytes "second") ++ [0%Z]))),
           after_line (bytes "first" ++ 10%Z :: bytes "second"), h').
Proof.
  apply (str_input_line {| data := None; is_dynamic := true |}
           (bytes "first" ++ 10%Z :: bytes "second") []).
  - reflexivity.
  - constructor.
  - vm_compute. repeat constructor; lia.
  - vm_compute. discriminate.
Defined.

(** X11: [str_add_input] appends the line that is read.  On a handle that
    holds the text [t] in an exactly sized buffer (or nothing, [t]
    empty), with a generous allocator and a zero-free line such that [t]
    and the line together stay 20 bytes below [MAX_STRING_SIZE], it
    returns 0, leaves [t ++ line] in an exactly sized buffer and the
    input right behind the newline. *)
Theorem str_add_input_appends (s : Str) (t : list Z) (input : Stdin) (h : Allocator) :
  (data s = None ∧ t = []) ∨ (data s = Some (t ++ [0%Z]) ∧ text t) →
  generous h → text (line input) →
  (Z.of_nat (length t) + Z.of_nat (length (line input)) + 20 ≤ MAX_STRING_SIZE)%Z →
  ∃ h', str_add_input (Some s) input h
        = (0%Z, Some (set_data s (Some (t ++ line input ++ [0%Z]))),
           after_line input, h').
Proof.
  intros Hst Hh Htext Hmax.
  pose proof max_string_size_range as [HM1 HM2].
  pose proof (capacity_room (length (line input))) as [_ Hcap].
  destruct Hst as [[Hs ->]|[Hs Ht]].
  - destruct (get_dyn_input_reads MAX_STRING_SIZE input h Hh Htext) as (h' & Hr & _).
    + lia.
    + rewrite size_t_small by lia. intros [_ Hle]. lia.
    + exists h'. unfold str_add_input. rewrite Hs, Hr. done.
  - destruct (get_dyn_input_reads
                (size_t (MAX_STRING_SIZE - Z.of_nat (strlen (t ++ [0%Z]))))
                input h Hh Htext) as (h1 & Hr & Hh1).
    + lia.
    + rewrite strlen_string by done.
      rewrite !size_t_small by (rewrite ?size_t_small; lia).
      intros [_ Hle]. lia.
    + destruct (generous_request h1 Hh1) as (j & h2 & Hreq & _).
      exists h2. unfold str_add_input. rewrite Hs, Hr.
      rewrite (realloc_granted _ _ _ _ _ Hreq).
      rewrite !strlen_string by done.
      replace (length t + length (line input) + 1)
        with (length t + 1 + length (line input)) by lia.
      rewrite resize_string.
      unfold strncat. rewrite strlen_string, cstr_string by done.
      rewrite firstn_all.
      rewrite <- (app_nil_r (0%Z :: resize _ _ _)).
      rewrite poke_middle by (simpl; rewrite length_resize, length_app; simpl; lia).
      by rewrite app_nil_r.
Qed.

Lemma str_add_input_appends_witness :
  ∃ h', str_add_input (Some {| data := Some (lit "abc"); is_dynamic := true |})
          (bytes "def" ++ 10%Z :: bytes "x") []
        = (0%Z, Some (set_data {| data := Some (lit "abc"); is_dynamic := true |}
                        (Some (bytes "abc" ++ line (bytes "def" ++ 10%Z :: bytes "x")
                               ++ [0%Z]))),
           after_line (bytes "def" ++ 10%Z :: bytes "x"), h').
Proof.
  apply (str_add_input_appends {| data := Some (lit "abc"); is_dynamic := true |}
           (bytes "abc") (bytes "def" ++ 10%Z :: bytes "x") []).
  - right. split; [reflexivity|]. vm_compute. repeat constructor; lia.
  - constructor.
  - vm_compute. repeat constructor; lia.
  - vm_compute. discriminate.
Defined.

(** X12: when [get_dyn_input], with an allocator that grants every
    request, returns NULL, it has stopped inside the line: what is left
    of the input starts with the rest of that line, and its newline has
    not been read. *)
Theorem get_dyn_input_gives_up (max_str_size : Z) (input input' : Stdin)
    (h h' : Allocator) :
  generous h →
  get_dyn_input max_str_size input h = (None, input', h') →
  ∃ k, k < length (line input)
       ∧ input' = drop (S k) input
       ∧ line input' = drop (S k) (line input)
       ∧ after_line input' = after_line input.
Proof.
  intros Hh. unfold get_dyn_input.
  destruct (generous_request h Hh) as (j0 & h0 & Hreq0 & Hh0).
  rewrite (calloc_granted _ _ _ _ Hreq0).
  destruct (get_dyn_input_loop max_str_size input h0 _ _ _)
    as [[[[b len]|] input1] h1] eqn:Hloop.
  - pose proof (get_dyn_input_loop_generous _ _ _ _ _ _ _ _ _ Hloop Hh0) as Hh1.
    destruct (generous_request h1 Hh1) as (j1 & h2 & Hreq1 & _).
    by rewrite (malloc_granted _ _ _ _ Hreq1).
  - intros [= <- <-].
    apply get_dyn_input_loop_gives_up in Hloop as (k & Hk & ->).
    exists k. split; [done|]. split; [done|]. by apply line_drop.
Qed.

Lemma get_dyn_input_gives_up_witness :
  ∃ k, k < length (line (bytes "ab" ++ 10%Z :: bytes "next"))
       ∧ 98%Z :: 10%Z :: bytes "next" = drop (S k) (bytes "ab" ++ 10%Z :: bytes "next")
       ∧ line (98%Z :: 10%Z :: bytes "next")
         = drop (S k) (line (bytes "ab" ++ 10%Z :: bytes "next"))
       ∧ after_line (98%Z :: 10%Z :: bytes "next")
         = after_line (bytes "ab" ++ 10%Z :: bytes "next").
Proof.
  apply (get_dyn_input_gives_up 11 (bytes "ab" ++ 10%Z :: bytes "next")
           (98%Z :: 10%Z :: bytes "next") [] []).
  - constructor.
  - reflexivity.
Defined.

(** ** Title case, byte by byte *)

Section title.
Implicit Types (p r : list Z) (x c : Z) (flag : bool).

Lemma space_before_step x r i :
  (∃ k, k < S i ∧ (x :: r) !! k = Some 32%Z)
  ↔ x = 32%Z ∨ ∃ k, k < i ∧ r !! k = Some 32%Z.
Proof.
  split.
  - intros ([|k] & Hk & Hx); simpl in Hx.
    + left. congruence.
    + right. exists k. split; [lia|done].
  - intros [->|(k & Hk & Hx)].
    + exists 0. split; [lia|done].
    + exists (S k). split; [lia|done].
Qed.

Lemma lower_followed_step x r i :
  (∀ j c, j < S i → (x :: r) !! j = Some c → is_lower c = true →
          ∃ k, j < k < S i ∧ (x :: r) !! k = Some 32%Z)
  ↔ (is_lower x = true → ∃ k, k < i ∧ r !! k = Some 32%Z)
    ∧ ∀ j c, j < i → r !! j = Some c → is_lower c = true →
             ∃ k, j < k < i ∧ r !! k = Some 32%Z.
Proof.
  split.
  - intros H. split.
    + intros Hl. destruct (H 0 x ltac:(lia) eq_refl Hl) as ([|k] & Hk & Hx); [lia|].
      exists k. split; [lia|done].
    + intros j c Hj Hc Hl.
      destruct (H (S j) c ltac:(lia) Hc Hl) as ([|k] & Hk & Hx); [lia|].
      exists k. split; [lia|done].
  - intros [H0 H] [|j] c Hj Hc Hl; simpl in Hc.
    + injection Hc as ->. destruct (H0 Hl) as (k & Hk & Hx).
      exists (S k). split; [lia|done].
    + destruct (H j c ltac:(lia) Hc Hl) as (k & Hk & Hx).
      exists (S k). split; [lia|done].
Qed.

(** How the flag moves over one byte. *)
Lemma armed_step flag x r i :
  armed flag (x :: r) (S i)
  ↔ armed (if flag && is_lower x then false
           else if (x =? 32)%Z then true else flag) r i.
Proof.
  unfold armed. rewrite space_before_step, lower_followed_step.
  destruct (is_lower x) eqn:El.
  - assert (x ≠ 32%Z) as Hx by (apply is_lower_range in El; lia).
    destruct (Z.eqb_spec x 32); [done|].
    destruct flag; simpl; intuition (discriminate || congruence).
  - destruct (Z.eqb_spec x 32); destruct flag; simpl;
      intuition (discriminate || congruence).
Qed.

Lemma armed_start flag p : armed flag p 0 ↔ flag = true.
Proof.
  unfold armed. split.
  - intros [H _]. destruct flag; [done|].
    destruct (H eq_refl) as (k & Hk & _). lia.
  - intros ->. split; [done|]. intros j c Hj. lia.
Qed.

(** The byte the loop leaves at offset [i] of the string. *)
Lemma title_loop_at p : ∀ flag i c,
  i < strlen p → p !! i = Some c →
  (is_lower c = true → armed flag p i →
   title_loop flag p !! i = Some (c - 32)%Z)
  ∧ (¬ (is_lower c = true ∧ armed flag p i) → title_loop flag p !! i = Some c).
Proof.
  induction p as [|x r IH]; intros flag i c Hi Hc; [done|].
  simpl in Hi. cbn [title_loop].
  destruct (Z.eqb_spec x 0); [lia|].
  destruct i as [|i].
  - injection Hc as ->. rewrite armed_start. split.
    + intros Hl ->. simpl. rewrite Hl. simpl. by rewrite clear_bit5_lower.
    + intros Hno. destruct (flag && is_lower c) eqn:E.
      * apply andb_prop in E as [-> E]. by destruct Hno.
      * by destruct (c =? 32)%Z.
  - simpl in Hc. rewrite armed_step.
    destruct (flag && is_lower x); [|destruct (x =? 32)%Z]; simpl;
      apply IH; (lia || done).
Qed.

Lemma title_loop_tail flag p :
  drop (strlen p) (title_loop flag p) = drop (strlen p) p.
Proof.
  revert flag. induction p as [|x r IH]; intros flag; simpl; [done|].
  destruct (Z.eqb_spec x 0); simpl; [done|].
  destruct (flag && is_lower x); [|destruct (x =? 32)%Z]; simpl; apply IH.
Qed.

End title.

(** X13: what [str_to_title_case] does to a non-empty content, byte by
    byte: a byte is replaced, by the byte 32 below it, exactly when it is
    a lower-case ASCII letter and no lower-case letter lies between it
    and the last space before it (or the start of the string); every
    other byte of the content, the terminator and what lies behind it
    stay as they are. *)
Theorem title_case_bytes (s : Str) (d : list Z) :
  data s = Some d → strlen d ≠ 0 →
  ∃ d', str_to_title_case (Some s) = (0%Z, Some (set_data s (Some d')))
    ∧ length d' = length d
    ∧ drop (strlen d) d' = drop (strlen d) d
    ∧ ∀ i c, i < strlen d → d !! i = Some c →
        (is_lower c = true → armed true d i → d' !! i = Some (c - 32)%Z)
        ∧ (¬ (is_lower c = true ∧ armed true d i) → d' !! i = Some c).
Proof.
  intros Hs Hne. exists (title_loop true d).
  unfold str_to_title_case. rewrite Hs, decide_False by done.
  split; [done|]. split; [apply title_loop_length|].
  split; [apply title_loop_tail|].
  intros i c Hi Hc. by apply title_loop_at.
Qed.

Lemma title_case_bytes_witness :
  ∃ d', str_to_title_case (Some {| data := Some (lit "ab cd"); is_dynamic := true |})
        = (0%Z, Some (set_data {| data := Some (lit "ab cd"); is_dynamic := true |}
                        (Some d')))
    ∧ length d' = length (lit "ab cd")
    ∧ drop (strlen (lit "ab cd")) d' = drop (strlen (lit "ab cd")) (lit "ab cd")
    ∧ ∀ i c, i < strlen (lit "ab cd") → lit "ab cd" !! i = Some c →
        (is_lower c = true → armed true (lit "ab cd") i → d' !! i = Some (c - 32)%Z)
        ∧ (¬ (is_lower c = true ∧ armed true (lit "ab cd") i) → d' !! i = Some c).
Proof.
  apply (title_case_bytes {| data := Some (lit "ab cd"); is_dynamic := true |}
           (lit "ab cd")).
  - reflexivity.
  - vm_compute. lia.
Defined.

(** ** The registry as a list *)

Module RegistryChain.
Import Registry.

Section chains.
Implicit Types (m : gmap loc Pointer_counter) (p : option loc) (l : list loc)
  (a : loc) (s : state).

Lemma linked_functional m : ∀ l1 l2 p, linked m p l1 → linked m p l2 → l1 = l2.
Proof.
  induction l1 as [|a l1 IH]; intros [|b l2] p; simpl.
  - done.
  - intros -> [? _]. done.
  - intros [-> _] ?. done.
  - intros [-> (nd & Hnd & H1)] [[= <-] (nd' & Hnd' & H2)].
    rewrite Hnd in Hnd'. injection Hnd' as <-. f_equal. by eapply IH.
Qed.

Lemma linked_suffix m : ∀ l1 l2 a p,
  linked m p (l1 ++ a :: l2) → linked m (Some a) (a :: l2).
Proof.
  induction l1 as [|b l1 IH]; intros l2 a p; simpl.
  - intros [_ H]. done.
  - intros [_ (nd & _ & H)]. by eapply IH.
Qed.

Lemma linked_NoDup m : ∀ l p, linked m p l → NoDup l.
Proof.
  induction l as [|a l IH]; intros p; [constructor|].
  intros H. pose proof H as [-> (nd & Hnd & Hl)].
  apply NoDup_cons. split; [|by eapply IH].
  intros (l1 & l2 & ->)%list_elem_of_split.
  pose proof (linked_suffix _ _ _ _ _ Hl) as Hs.
  pose proof (linked_functional _ _ _ _ H Hs) as E.
  apply (f_equal length) in E. simpl in E. rewrite length_app in E. simpl in E. lia.
Qed.

Lemma linked_live m : ∀ l p a, linked m p l → a ∈ l → is_Some (m !! a).
Proof.
  induction l as [|b l IH]; intros p a; simpl.
  - intros _ H. by apply elem_of_nil in H.
  - intros [-> (nd & Hnd & Hl)] [->|Ha]%elem_of_cons; [by eexists|by eapply IH].
Qed.

Lemma linked_length m l p : linked m p l → length l ≤ size m.
Proof.
  intros H. rewrite <- length_map_to_list, <- (length_fmap fst).
  apply submseteq_length, NoDup_submseteq; [by eapply linked_NoDup|].
  intros a Ha. destruct (linked_live _ _ _ _ H Ha) as [nd Hnd].
  apply list_elem_of_fmap. exists (a, nd). split; [done|].
  by apply elem_of_map_to_list.
Qed.

(** Only the nodes of the list matter. *)
Lemma linked_agree m m' : ∀ l p,
  linked m p l → (∀ a, a ∈ l → m' !! a = m !! a) → linked m' p l.
Proof.
  induction l as [|a l IH]; intros p; simpl; [done|].
  intros [-> (nd & Hnd & Hl)] Hag. split; [done|]. exists nd.
  split; [by rewrite Hag by left|].
  apply IH; [done|]. intros b Hb. apply Hag. by right.
Qed.

(** The walk to the tail ends on the last node of the list. *)
Lemma last_node_linked m : ∀ fuel l a,
  linked m (Some a) l → length l ≤ fuel → last_node fuel m a = last l.
Proof.
  induction fuel as [|fuel IH]; intros l a.
  - destruct l; simpl; [by intros [=]|lia].
  - destruct l as [|b l]; simpl; [by intros [=]|].
    intros [[= <-] (nd & -> & Hl)] Hlen.
    destruct (next nd) as [n|] eqn:Hn.
    + rewrite (IH l n Hl) by lia. destruct l; [simpl in Hl; discriminate|done].
    + destruct l; [done|]. simpl in Hl. by destruct Hl.
Qed.

(** [handles_from] reads the list off. *)
Lemma handles_from_linked m : ∀ l fuel p,
  linked m p l → length l ≤ fuel →
  handles_from fuel m p = Some (handle_at m <$> l).
Proof.
  induction l as [|a l IH]; intros fuel p; simpl.
  - intros -> _. by destruct fuel.
  - intros [-> (nd & Hnd & Hl)] Hlen.
    destruct fuel as [|fuel]; [lia|]. simpl.
    rewrite Hnd. simpl. rewrite (IH fuel (next nd) Hl) by lia. simpl.
    unfold handle_at at 2. by rewrite Hnd.
Qed.

Lemma handles_chain s l :
  linked (nodes s) (head s) l → handles s = Some (handle_at (nodes s) <$> l).
Proof.
  intros H. unfold handles. apply handles_from_linked; [done|].
  pose proof (linked_length _ _ _ H). lia.
Qed.

(** The list, one node longer. *)
Lemma linked_extend m m' tl a nd_tl nd_a : ∀ l p,
  linked m p (l ++ [tl]) → NoDup (l ++ [tl]) →
  (∀ b, b ∈ l → m' !! b = m !! b) →
  m !! tl = Some nd_tl →
  m' !! tl = Some {| str_ptr := str_ptr nd_tl; next := Some a;
                     counter := counter nd_tl |} →
  m' !! a = Some nd_a → next nd_a = None →
  linked m' p (l ++ [tl; a]).
Proof.
  induction l as [|b l IH]; intros p; simpl.
  - intros [-> _] _ _ Htl Htl' Ha Hn. split; [done|]. eexists. split; [exact Htl'|].
    simpl. split; [done|]. exists nd_a. by rewrite Hn.
  - intros [-> (nd & Hnd & Hl)] [Hb Hnd']%NoDup_cons Hag Htl Htl' Ha Hn.
    split; [done|]. exists nd. split; [by rewrite Hag by left|].
    apply IH; try done. intros c Hc. apply Hag. by right.
Qed.

End chains.

Lemma add_appends_chain (s : state) (l : list loc) (h a st : loc) :
  chain s l → nodes s !! a = None →
  ∃ s' hs, pointer_counter_add s (Some h) (Some a) (Some st) true = Returns 0 s'
    ∧ chain s' (l ++ [a])
    ∧ handles s = Some hs
    ∧ handles s' = Some (hs ++ [Some h]).
Proof.
  intros [Hl Hc] Ha.
  assert (a ∉ l) as Hal.
  { intros Hin. destruct (linked_live _ _ _ _ Hl Hin) as [nd Hnd]. congruence. }
  set (zero := {| str_ptr := Some st; next := None; counter := 0 |}).
  set (fill := λ nd : Pointer_counter,
         {| str_ptr := Some h; next := None; counter := size_t (counter nd + 1) |}).
  set (m1 := <[a := zero]> (nodes s)).
  unfold pointer_counter_add, pointer_counter_create. fold zero m1 fill.
  destruct (decide (l = [])) as [->|Hne0].
  - (* the first node *)
    simpl in Hl. rewrite Hl.
    eexists _, []. split; [done|].
    assert (alter fill a m1 !! a = Some (fill zero)) as Hnew
      by (unfold m1; by rewrite lookup_alter_eq, lookup_insert_eq).
    assert (linked (alter fill a m1) (Some a) [a]) as Hl'.
    { split; [done|]. by exists (fill zero). }
    split; [split; [done|]|split].
    + intros b nd [->|Hb]%elem_of_cons; [|by apply elem_of_nil in Hb].
      simpl. rewrite Hnew. by intros [= <-].
    + rewrite (handles_chain s []); [done|]. simpl. done.
    + rewrite (handles_chain _ [a]) by done. simpl.
      unfold handle_at. simpl. by rewrite Hnew.
  - (* behind the last node *)
    destruct (exists_last Hne0) as (init & tl & ->).
    assert (∃ hd, head s = Some hd) as [hd Hhd].
    { destruct init; simpl in Hl; destruct Hl as [-> _]; by eexists. }
    rewrite Hhd.
    pose proof (linked_NoDup _ _ _ Hl) as Hnd.
    assert (tl ∈ init ++ [tl]) as Htl_in by (apply elem_of_app; right; by left).
    destruct (linked_live _ _ _ _ Hl Htl_in) as [nd_tl Htl].
    assert (tl ≠ a) as Hne by (intros ->; congruence).
    assert (linked m1 (Some hd) (init ++ [tl])) as Hl1.
    { rewrite <- Hhd. apply (linked_agree (nodes s)); [done|].
      intros b Hb. unfold m1. apply lookup_insert_ne. by intros ->. }
    rewrite (last_node_linked m1 (size m1) (init ++ [tl]) hd Hl1)
      by by eapply linked_length.
    rewrite last_snoc.
    set (link := λ nd : Pointer_counter,
           {| str_ptr := str_ptr nd; next := Some a; counter := counter nd |}).
    set (m' := alter fill a (alter link tl m1)).
    assert (m' !! a = Some (fill zero)) as Hnew.
    { unfold m', m1. rewrite lookup_alter_eq, lookup_alter_ne by done.
      by rewrite lookup_insert_eq. }
    assert (m' !! tl = Some (link nd_tl)) as Htl'.
    { unfold m', m1. rewrite lookup_alter_ne, lookup_alter_eq by done.
      rewrite lookup_insert_ne by done. by rewrite Htl. }
    assert (∀ b, b ≠ tl → b ≠ a → m' !! b = nodes s !! b) as Hother.
    { intros b Hb1 Hb2. unfold m', m1.
      rewrite !lookup_alter_ne by done. by apply lookup_insert_ne. }
    pose proof Hnd as (_ & Hdisj & _)%NoDup_app.
    assert (∀ b, b ∈ init → m' !! b = nodes s !! b) as Hinit.
    { intros b Hb. apply Hother; [|by intros ->; apply Hal, elem_of_app; left].
      intros ->. apply (Hdisj tl Hb). by left. }
    assert (linked m' (Some hd) ((init ++ [tl]) ++ [a])) as Hl'.
    { rewrite <- app_assoc. simpl. rewrite <- Hhd.
      by apply (linked_extend (nodes s) m' tl a nd_tl (fill zero)). }
    assert (∀ b, b ∈ init ++ [tl] →
              handle_at m' b = handle_at (nodes s) b
              ∧ ∀ nd', m' !! b = Some nd' →
                  ∃ nd, nodes s !! b = Some nd ∧ counter nd' = counter nd) as Hkeep.
    { intros b [Hb|[->|Hb]%elem_of_cons]%elem_of_app.
      - unfold handle_at. rewrite Hinit by done. eauto.
      - unfold handle_at. rewrite Htl', Htl. split; [done|].
        intros nd' [= <-]. eauto.
      - by apply elem_of_nil in Hb. }
    exists {| nodes := m'; head := Some hd |}, (handle_at (nodes s) <$> init ++ [tl]).
    split; [done|]. split; [split; [done|]|split].
    + simpl. intros b nd' [Hb|[->|Hb]%elem_of_cons]%elem_of_app Hnd'.
      * destruct (Hkeep b Hb) as [_ Hk]. destruct (Hk nd' Hnd') as (nd & Hn & ->).
        by eapply Hc.
      * rewrite Hnew in Hnd'. by injection Hnd' as <-.
      * by apply elem_of_nil in Hb.
    + by apply handles_chain.
    + rewrite (handles_chain _ ((init ++ [tl]) ++ [a])) by done. simpl.
      rewrite fmap_app. simpl. unfold handle_at at 2. rewrite Hnew. simpl.
      do 2 f_equal. apply list_fmap_ext. intros i b Hb.
      apply Hkeep. by eapply list_elem_of_lookup_2.
Qed.

Lemma handle_at_Some m a h :
  handle_at m a = Some h ↔ ∃ nd, m !! a = Some nd ∧ str_ptr nd = Some h.
Proof.
  unfold handle_at. destruct (m !! a) as [nd|]; simpl.
  - split; [by exists nd|]. by intros (? & [= <-] & ?).
  - split; [done|]. by intros (? & ? & _).
Qed.

(** The head holds the handle: its node is freed, [*head] keeps its
    address. *)
Lemma free_head_chain (s : state) (a1 : loc) (rest : list loc) (h : loc) :
  chain s (a1 :: rest) → handle_at (nodes s) a1 = Some h →
  pointer_counter_free s (Some h)
  = Returns 0 {| nodes := delete a1 (nodes s); head := Some a1 |}.
Proof.
  intros [[Hhd (nd & Hnd & _)] _] (nd' & Hnd' & Hh)%handle_at_Some.
  rewrite Hnd in Hnd'. injection Hnd' as <-.
  unfold pointer_counter_free. rewrite Hhd, Hnd, decide_True by done. done.
Qed.

(** The second node holds the handle: it is unlinked and freed. *)
Lemma free_second_chain (s : state) (a1 a2 : loc) (rest : list loc) (h : loc) :
  chain s (a1 :: a2 :: rest) →
  handle_at (nodes s) a1 ≠ Some h → handle_at (nodes s) a2 = Some h →
  ∃ s', pointer_counter_free s (Some h) = Returns 0 s'
    ∧ chain s' (a1 :: rest)
    ∧ nodes s' !! a2 = None
    ∧ handles s' = Some (handle_at (nodes s) <$> a1 :: rest).
Proof.
  intros [Hl Hc] H1 (n2 & Hn2 & Hh2)%handle_at_Some.
  pose proof (linked_NoDup _ _ _ Hl) as [Hna1 [Hna2 Hnd]%NoDup_cons]%NoDup_cons.
  destruct Hl as [Hhd (n1 & Hn1 & [Hnext (n2' & Hn2' & Hrest)])].
  rewrite Hn2 in Hn2'. injection Hn2' as <-.
  assert (str_ptr n1 ≠ Some h) as Hp1.
  { intros Hp. apply H1, handle_at_Some. by exists n1. }
  assert (counter n1 = 1%Z) as Hc1 by (apply (Hc a1 n1); [by left|done]).
  assert (a1 ≠ a2) as Hne by (intros ->; apply Hna1; by left).
  set (unlink := λ b : Pointer_counter,
         {| str_ptr := str_ptr b; next := next n2; counter := counter b |}).
  set (m' := delete a2 (alter unlink a1 (nodes s))).
  assert (m' !! a1 = Some (unlink n1)) as Hm1.
  { unfold m'. rewrite lookup_delete_ne, lookup_alter_eq by done. by rewrite Hn1. }
  assert (∀ b, b ∈ rest → m' !! b = nodes s !! b) as Hm.
  { intros b Hb. unfold m'.
    rewrite lookup_delete_ne by (intros ->; done).
    apply lookup_alter_ne. intros ->. apply Hna1. by right. }
  assert (linked m' (Some a1) (a1 :: rest)) as Hl'.
  { split; [done|]. exists (unlink n1). split; [done|]. simpl.
    by apply (linked_agree (nodes s)). }
  exists {| nodes := m'; head := head s |}.
  split; [|split; [|split]].
  - unfold pointer_counter_free. rewrite Hhd, Hn1, decide_False by done.
    rewrite Hc1, Hnext. simpl. rewrite Hn2, decide_True by done. by rewrite Hhd.
  - split; [simpl; by rewrite Hhd|]. simpl.
    intros b nd [->|Hb]%elem_of_cons Hb'.
    + rewrite Hm1 in Hb'. by injection Hb' as <-.
    + rewrite Hm in Hb' by done. apply (Hc b nd); [by do 2 right|done].
  - unfold m'. simpl. apply lookup_delete_eq.
  - rewrite (handles_chain _ (a1 :: rest)) by (simpl; by rewrite Hhd).
    simpl. f_equal. f_equal.
    + unfold handle_at. by rewrite Hm1, Hn1.
    + apply list_fmap_ext. intros i b Hb. unfold handle_at.
      rewrite Hm; [done|]. by eapply list_elem_of_lookup_2.
Qed.

(** Neither of the first two nodes holds the handle: the scan is over
    after the second node and the function ends without a [return]. *)
Lemma free_beyond_chain (s : state) (a1 a2 : loc) (rest : list loc) (h : loc) :
  chain s (a1 :: a2 :: rest) →
  handle_at (nodes s) a1 ≠ Some h → handle_at (nodes s) a2 ≠ Some h →
  pointer_counter_free s (Some h) = FallsOff s.
Proof.
  intros [Hl Hc] H1 H2.
  destruct Hl as [Hhd (n1 & Hn1 & [Hnext (n2 & Hn2 & Hrest)])].
  assert (str_ptr n1 ≠ Some h) as Hp1.
  { intros Hp. apply H1, handle_at_Some. by exists n1. }
  assert (str_ptr n2 ≠ Some h) as Hp2.
  { intros Hp. apply H2, handle_at_Some. by exists n2. }
  assert (counter n1 = 1%Z) as Hc1 by (apply (Hc a1 n1); [by left|done]).
  unfold pointer_counter_free. rewrite Hhd, Hn1, decide_False by done.
  rewrite Hc1, Hnext. simpl. rewrite Hn2, decide_False by done.
  by rewrite Hn1.
Qed.

(** No node, or a single node for another handle: not found. *)
Lemma free_short_chain (s : state) (l : list loc) (h : loc) :
  chain s l → length l ≤ 1 → (∀ a, a ∈ l → handle_at (nodes s) a ≠ Some h) →
  pointer_counter_free s (Some h) = Returns (-1) s.
Proof.
  intros [Hl Hc] Hlen Hno. destruct l as [|a1 [|a2 l]]; simpl in Hlen; [| |lia].
  - simpl in Hl. unfold pointer_counter_free. by rewrite Hl.
  - destruct Hl as [Hhd (n1 & Hn1 & Hnext)]. simpl in Hnext.
    assert (str_ptr n1 ≠ Some h) as Hp1.
    { intros Hp. apply (Hno a1); [by left|]. apply handle_at_Some. by exists n1. }
    assert (counter n1 = 1%Z) as Hc1 by (apply (Hc a1 n1); [by left|done]).
    unfold pointer_counter_free. rewrite Hhd, Hn1, decide_False by done.
    by rewrite Hc1, Hnext.
Qed.

Lemma two_nodes_chain : chain two_nodes [1%positive; 2%positive].
Proof.
  split.
  - split; [done|]. eexists. split; [reflexivity|].
    split; [done|]. eexists. split; [reflexivity|]. done.
  - intros a nd [->|[->|Ha]%elem_of_cons]%elem_of_cons;
      [by intros [= <-]|by intros [= <-]|by apply elem_of_nil in Ha].
Qed.

Lemma three_nodes_chain : chain three_nodes [1%positive; 2%positive; 3%positive].
Proof.
  split.
  - split; [done|]. eexists. split; [reflexivity|].
    split; [done|]. eexists. split; [reflexivity|].
    split; [done|]. eexists. split; [reflexivity|]. done.
  - intros a nd [->|[->|[->|Ha]%elem_of_cons]%elem_of_cons]%elem_of_cons;
      [by intros [= <-]|by intros [= <-]|by intros [= <-]|by apply elem_of_nil in Ha].
Qed.

(** X14: on a registry that is a list of live nodes, with a node address
    not in use, [pointer_counter_add] returns 0 and appends: the registry
    is the old list followed by the new node, the handles it held are
    held in the same order, and the new handle comes last. *)
Theorem add_appends (s : state) (l : list loc) (h a st : loc) :
  chain s l → nodes s !! a = None →
  ∃ s' hs, pointer_counter_add s (Some h) (Some a) (Some st) true = Returns 0 s'
    ∧ chain s' (l ++ [a])
    ∧ handles s = Some hs
    ∧ handles s' = Some (hs ++ [Some h]).
Proof. apply add_appends_chain. Qed.

Lemma add_appends_witness :
  ∃ s' hs, pointer_counter_add two_nodes (Some 30%positive) (Some 3%positive)
             (Some 103%positive) true = Returns 0 s'
    ∧ chain s' ([1%positive; 2%positive] ++ [3%positive])
    ∧ handles two_nodes = Some hs
    ∧ handles s' = Some (hs ++ [Some 30%positive]).
Proof.
  apply (add_appends two_nodes [1%positive; 2%positive] 30%positive 3%positive
           103%positive).
  - exact two_nodes_chain.
  - reflexivity.
Defined.

(** X15: when the second node of the list holds the handle and the head
    does not, [pointer_counter_free] returns 0, frees that node and links
    the head to what followed it: the other handles stay, in order. *)
Theorem free_second (s : state) (a1 a2 : loc) (rest : list loc) (h : loc) :
  chain s (a1 :: a2 :: rest) →
  handle_at (nodes s) a1 ≠ Some h → handle_at (nodes s) a2 = Some h →
  ∃ s', pointer_counter_free s (Some h) = Returns 0 s'
    ∧ chain s' (a1 :: rest)
    ∧ nodes s' !! a2 = None
    ∧ handles s' = Some (handle_at (nodes s) <$> a1 :: rest).
Proof. apply free_second_chain. Qed.

Lemma free_second_witness :
  ∃ s', pointer_counter_free three_nodes (Some 20%positive) = Returns 0 s'
    ∧ chain s' [1%positive; 3%positive]
    ∧ nodes s' !! 2%positive = None
    ∧ handles s' = Some (handle_at (nodes three_nodes) <$> [1%positive; 3%positive]).
Proof.
  apply (free_second three_nodes 1%positive 2%positive [3%positive] 20%positive).
  - exact three_nodes_chain.
  - vm_compute. discriminate.
  - reflexivity.
Defined.

(** X16: when the head node holds the handle, [pointer_counter_free]
    returns 0 and frees the node but does not move [*head]: the caller's
    pointer keeps the address of the freed node, so the list can no
    longer be walked, while the nodes behind it are still allocated. *)
Theorem free_head_dangles (s : state) (a1 : loc) (rest : list loc) (h : loc) :
  chain s (a1 :: rest) → handle_at (nodes s) a1 = Some h →
  ∃ s', pointer_counter_free s (Some h) = Returns 0 s'
    ∧ head s' = Some a1
    ∧ nodes s' !! a1 = None
    ∧ handles s' = None
    ∧ ∀ b, b ∈ rest → nodes s' !! b = nodes s !! b.
Proof.
  intros Hch Hh. pose proof Hch as [Hl _].
  pose proof (linked_NoDup _ _ _ Hl) as [Hna _]%NoDup_cons.
  exists {| nodes := delete a1 (nodes s); head := Some a1 |}.
  split; [by eapply free_head_chain|]. simpl.
  split; [done|]. split; [apply lookup_delete_eq|]. split.
  - unfold handles. simpl. by rewrite lookup_delete_eq.
  - intros b Hb. apply lookup_delete_ne. by intros ->.
Qed.

Lemma free_head_dangles_witness :
  ∃ s', pointer_counter_free two_nodes (Some 10%positive) = Returns 0 s'
    ∧ head s' = Some 1%positive
    ∧ nodes s' !! 1%positive = None
    ∧ handles s' = None
    ∧ ∀ b, b ∈ [2%positive] → nodes s' !! b = nodes two_nodes !! b.
Proof.
  apply (free_head_dangles two_nodes 1%positive [2%positive] 10%positive).
  - exact two_nodes_chain.
  - reflexivity.
Defined.

(** X17: when neither the head nor the second node holds the handle,
    [pointer_counter_free] ends without a [return] and changes nothing,
    whether the handle is held further down the list or not at all: the
    scan covers [head->counter] = 1 node behind the head. *)
Theorem free_scans_two (s : state) (a1 a2 : loc) (rest : list loc) (h : loc) :
  chain s (a1 :: a2 :: rest) →
  handle_at (nodes s) a1 ≠ Some h → handle_at (nodes s) a2 ≠ Some h →
  pointer_counter_free s (Some h) = FallsOff s.
Proof. apply free_beyond_chain. Qed.

Lemma free_scans_two_witness :
  pointer_counter_free three_nodes (Some 30%positive) = FallsOff three_nodes
  ∧ pointer_counter_free three_nodes (Some 40%positive) = FallsOff three_nodes.
Proof.
  split.
  - apply (free_scans_two three_nodes 1%positive 2%positive [3%positive] 30%positive).
    + exact three_nodes_chain.
    + vm_compute. discriminate.
    + vm_compute. discriminate.
  - apply (free_scans_two three_nodes 1%positive 2%positive [3%positive] 40%positive).
    + exact three_nodes_chain.
    + vm_compute. discriminate.
    + vm_compute. discriminate.
Defined.

(** X18: on an empty registry, or one with a single node for another
    handle, [pointer_counter_free] returns -1 and changes nothing. *)
Theorem free_not_found (s : state) (l : list loc) (h : loc) :
  chain s l → length l ≤ 1 → (∀ a, a ∈ l → handle_at (nodes s) a ≠ Some h) →
  pointer_counter_free s (Some h) = Returns (-1) s.
Proof. apply free_short_chain. Qed.

Lemma free_not_found_witness :
  pointer_counter_free {| nodes := ∅; head := None |} (Some 30%positive)
  = Returns (-1) {| nodes := ∅; head := None |}.
Proof.
  apply (free_not_found {| nodes := ∅; head := None |} [] 30%positive).
  - split; [done|]. intros a nd Ha. by apply elem_of_nil in Ha.
  - simpl. lia.
  - intros a Ha. by apply elem_of_nil in Ha.
Defined.

(** X19: add, then free, on a well-formed registry whose nodes hold other
    handles.  With exactly one node the pair works: both calls return 0
    and the registry holds the handles it held before.  With two or more
    nodes the add returns 0 and the free ends without a [return], the
    new node still last in the list. *)
Theorem add_then_free (s : state) (l : list loc) (h a st : loc) :
  chain s l → l ≠ [] → nodes s !! a = None →
  (∀ b, b ∈ l → handle_at (nodes s) b ≠ Some h) →
  ∃ s1, pointer_counter_add s (Some h) (Some a) (Some st) true = Returns 0 s1
    ∧ (length l = 1 →
       ∃ s2, pointer_counter_free s1 (Some h) = Returns 0 s2
         ∧ chain s2 l ∧ handles s2 = handles s)
    ∧ (2 ≤ length l →
       pointer_counter_free s1 (Some h) = FallsOff s1
       ∧ chain s1 (l ++ [a])
       ∧ (λ hs, hs ++ [Some h]) <$> handles s = handles s1).
Proof.
  intros Hch Hne Ha Hno.
  destruct (add_appends_chain s l h a st Hch Ha) as (s1 & hs & Hadd & Hch1 & Hhs & Hhs1).
  exists s1. split; [done|].
  pose proof Hch as [Hl _]. pose proof Hch1 as [Hl1 _].
  rewrite (handles_chain s l Hl) in Hhs. injection Hhs as <-.
  pose proof Hhs1 as Hhs1'.
  rewrite (handles_chain s1 _ Hl1) in Hhs1'. injection Hhs1' as Hmap.
  rewrite fmap_app in Hmap.
  destruct l as [|a1 [|a2 rest]]; [done| |].
  - (* one node *)
    split; [intros _|simpl; lia].
    simpl in Hmap. injection Hmap as H1 H2.
    destruct (free_second_chain s1 a1 a [] h Hch1) as (s2 & Hfree & Hch2 & _ & Hh2).
    + rewrite H1. apply Hno. by left.
    + done.
    + exists s2. split; [done|]. split; [done|].
      rewrite Hh2, (handles_chain s [a1] Hl). simpl. by rewrite H1.
  - (* two nodes or more *)
    split; [simpl; lia|intros _].
    simpl in Hmap. injection Hmap as H1 H2 _.
    split; [|split; [done|]].
    + apply (free_beyond_chain s1 a1 a2 (rest ++ [a]) h Hch1).
      * rewrite H1. apply Hno. by left.
      * rewrite H2. apply Hno. right. by left.
    + by rewrite (handles_chain s _ Hl), Hhs1.
Qed.

Lemma add_then_free_witness :
  ∃ s1, pointer_counter_add two_nodes (Some 30%positive) (Some 3%positive)
          (Some 103%positive) true = Returns 0 s1
    ∧ pointer_counter_free s1 (Some 30%positive) = FallsOff s1
    ∧ chain s1 ([1%positive; 2%positive] ++ [3%positive]).
Proof.
  destruct (add_then_free two_nodes [1%positive; 2%positive] 30%positive 3%positive
              103%positive) as (s1 & Hadd & _ & Hlong).
  - exact two_nodes_chain.
  - discriminate.
  - reflexivity.
  - intros b [->|[->|Hb]%elem_of_cons]%elem_of_cons;
      [vm_compute; discriminate|vm_compute; discriminate|by apply elem_of_nil in Hb].
  - exists s1. split; [exact Hadd|].
    destruct Hlong as (Hfree & Hch & _); [simpl; lia|].
    split; [exact Hfree|exact Hch].
Defined.

End RegistryChain.

(** ** More on lines, lengths and repeated cuts *)

Section more.
Implicit Types (s : Str) (d l r : list Z) (h : Allocator).

Lemma strlen_before_zero l r : strlen (l ++ 0%Z :: r) = strlen l.
Proof.
  induction l as [|x l IH]; simpl; [done|].
  destruct (x =? 0)%Z; [done|]. by rewrite IH.
Qed.

Lemma cstr_before_zero l r : cstr (l ++ 0%Z :: r) = cstr l.
Proof.
  unfold cstr. rewrite strlen_before_zero.
  apply take_app_le, strlen_le.
Qed.

Lemma title_loop_strlen flag d : strlen (title_loop flag d) = strlen d.
Proof.
  revert flag. induction d as [|x d IH]; intros flag; simpl; [done|].
  destruct (Z.eqb_spec x 0); simpl.
  { by destruct (Z.eqb_spec x 0). }
  destruct (flag && is_lower x) eqn:E; simpl.
  - apply andb_prop in E as [_ E]. rewrite clear_bit5_lower by done.
    apply is_lower_range in E.
    destruct (Z.eqb_spec (x - 32) 0); [lia|]. by rewrite IH.
  - destruct (x =? 32)%Z; simpl; destruct (Z.eqb_spec x 0); try done; by rewrite IH.
Qed.

End more.

(** X20: a zero byte in the line cuts the string that is returned.  With
    an allocator that grants every request and a line the bound lets
    through, [get_dyn_input] returns a block as long as the whole line
    plus one, whose string is the part of the line before its first zero
    byte. *)
Theorem get_dyn_input_zero_byte (max_str_size : Z) (input : Stdin) (h : Allocator) :
  generous h →
  (Z.of_nat (length (line input)) + 20 ≤ SIZE_MAX)%Z →
  ¬ (line input ≠ []
     ∧ (size_t (max_str_size - 1) ≤ capacity (length (line input)))%Z) →
  ∃ b, (get_dyn_input max_str_size input h).1.1 = Some b
    ∧ cstr b = cstr (line input)
    ∧ length b = length (line input) + 1.
Proof.
  intros Hh Hmax Hfits. unfold get_dyn_input.
  destruct (generous_request h Hh) as (j0 & h0 & Hreq0 & Hh0).
  rewrite (calloc_granted _ _ _ _ Hreq0).
  pose proof (get_dyn_input_loop_spec max_str_size input h0
                (replicate (Z.to_nat CHUNK_SIZE) 0%Z) [] (replicate 9 0%Z)
                eq_refl eq_refl Hh0 Hmax) as Hloop.
  change (capacity (length [])) with CHUNK_SIZE in Hloop.
  change (Z.of_nat (length [])) with 0%Z in Hloop.
  cbn [length Nat.add app] in Hloop.
  destruct (get_dyn_input_loop max_str_size input h0 _ _ _)
    as [[[[b len]|] input'] h1]; [|done].
  destruct Hloop as (_ & -> & (rest' & ->) & -> & Hh1).
  destruct (generous_request h1 Hh1) as (j1 & h2 & Hreq1 & Hh2).
  rewrite (malloc_granted _ _ _ _ Hreq1). cbn [fst].
  rewrite size_t_small by lia.
  replace (Z.to_nat (Z.of_nat (length (line input)) + 1))
    with (length (line input) + 1) by lia.
  rewrite strlen_before_zero.
  unfold strncpy. rewrite cstr_before_zero.
  pose proof (strlen_le (line input)) as Hle.
  pose proof (cstr_text (line input)) as Hct.
  pose proof (length_cstr (line input)) as Hk.
  set (k := strlen (line input)) in *. set (c := cstr (line input)) in *.
  clearbody k c. subst k.
  rewrite take_app_length.
  replace (length (line input) + 1)
    with (length c + (1 + (length (line input) - length c))) by lia.
  rewrite replicate_add. simpl replicate.
  rewrite poke_front by by rewrite length_replicate.
  rewrite store_middle.
  eexists. split; [done|]. split.
  - by apply cstr_string.
  - rewrite length_app. simpl. rewrite length_replicate. lia.
Qed.

Lemma get_dyn_input_zero_byte_witness :
  ∃ b, (get_dyn_input 100 [65; 0; 66; 10; 67]%Z []).1.1 = Some b
    ∧ cstr b = cstr (line [65; 0; 66; 10; 67]%Z)
    ∧ length b = length (line [65; 0; 66; 10; 67]%Z) + 1.
Proof.
  apply (get_dyn_input_zero_byte 100 [65; 0; 66; 10; 67]%Z []).
  - constructor.
  - vm_compute. discriminate.
  - vm_compute. intros [_ H]. apply H. reflexivity.
Defined.

(** X21: the four operations that work in place never change the length:
    whatever the handle and the status, after [str_to_upper],
    [str_to_lower], [str_to_title_case] or [str_reverse] both
    [str_get_size] and the size of the buffer are what they were. *)
Theorem in_place_keeps_size (c : call) (self self' : option Str)
    (input input' : Stdin) (h h' : Allocator) (r : Z) :
  c = ToUpper ∨ c = ToLower ∨ c = ToTitleCase ∨ c = Reverse →
  run c self input h = (r, self', input', h') →
  str_get_size self' = str_get_size self
  ∧ length <$> str_get_data self' = length <$> str_get_data self
  ∧ input' = input ∧ h' = h.
Proof.
  intros Hc Hrun.
  destruct self as [s|]; last first.
  { destruct Hc as [-> | [-> | [-> | ->]]]; (injection Hrun as <- <- <- <-; done). }
  destruct (data s) as [d|] eqn:Hs; last first.
  { destruct Hc as [-> | [-> | [-> | ->]]]; cbn in Hrun; rewrite Hs in Hrun;
      (injection Hrun as <- <- <- <-; done). }
  unfold str_get_size, str_get_data.
  destruct Hc as [-> | [-> | [-> | ->]]]; cbn [run] in Hrun.
  - unfold str_to_upper in Hrun. rewrite Hs in Hrun. injection Hrun as <- <- <- <-.
    simpl. rewrite Hs. rewrite to_upper_loop_block.
    destruct (cstr_mapped upper d upper_nonzero) as (-> & _ & _).
    split; [done|]. split; [|done]. simpl. f_equal.
    rewrite length_app, length_fmap, length_cstr, length_drop.
    pose proof (strlen_le d). lia.
  - unfold str_to_lower in Hrun. rewrite Hs in Hrun. injection Hrun as <- <- <- <-.
    simpl. rewrite Hs. rewrite to_lower_loop_block.
    destruct (cstr_mapped lower d lower_nonzero) as (-> & _ & _).
    split; [done|]. split; [|done]. simpl. f_equal.
    rewrite length_app, length_fmap, length_cstr, length_drop.
    pose proof (strlen_le d). lia.
  - unfold str_to_title_case in Hrun. rewrite Hs in Hrun.
    destruct (decide _); injection Hrun as <- <- <- <-; simpl; rewrite Hs; [done|].
    rewrite title_loop_strlen. split; [done|]. split; [|done].
    simpl. by rewrite title_loop_length.
  - unfold str_reverse in Hrun. rewrite Hs in Hrun.
    destruct (decide _); injection Hrun as <- <- <- <-; simpl; rewrite Hs; [done|].
    rewrite reverse_loop_enough by lia. rewrite strlen_reversed.
    split; [done|]. split; [|done]. simpl. f_equal.
    rewrite length_app, length_reverse, length_cstr, length_drop.
    pose proof (strlen_le d). lia.
Qed.

Lemma in_place_keeps_size_witness :
  str_get_size (run Reverse (Some {| data := Some (lit "abc"); is_dynamic := true |})
                  [] []).1.1.2
  = str_get_size (Some {| data := Some (lit "abc"); is_dynamic := true |})
  ∧ length <$> str_get_data
      (run Reverse (Some {| data := Some (lit "abc"); is_dynamic := true |}) [] []).1.1.2
    = length <$> str_get_data (Some {| data := Some (lit "abc"); is_dynamic := true |})
  ∧ (run Reverse (Some {| data := Some (lit "abc"); is_dynamic := true |}) [] []).1.2 = []
  ∧ (run Reverse (Some {| data := Some (lit "abc"); is_dynamic := true |}) [] []).2 = [].
Proof.
  apply (in_place_keeps_size Reverse
           (Some {| data := Some (lit "abc"); is_dynamic := true |}) _ [] _ [] _ 0%Z).
  - right. right. right. reflexivity.
  - reflexivity.
Defined.

(** X22: [str_pop_back] does not climb: once the content ends with the
    separator, a second call with the same separator returns 0 and
    leaves the content as the first call left it. *)
Theorem pop_back_twice (s : Str) (d pre suf : list Z) (sep : Z) (h : Allocator) :
  data s = Some d → terminated d →
  cstr d = pre ++ sep :: suf → sep ≠ 0%Z → sep ∉ suf →
  generous h →
  ∃ s1 h1 h2,
    str_pop_back (Some s) sep h = (0%Z, Some s1, h1)
    ∧ content (Some s1) = Some (pre ++ [sep])
    ∧ str_pop_back (Some s1) sep h1 = (0%Z, Some s1, h2).
Proof.
  intros Hs Hd Hc Hsep Hnotin Hh.
  destruct (generous_request h Hh) as (j1 & h1 & Hreq1 & Hh1).
  destruct (generous_request h1 Hh1) as (j2 & h2 & Hreq2 & _).
  assert (text (pre ++ [sep])) as Ht.
  { pose proof (cstr_text d) as Ht. rewrite Hc in Ht.
    apply text_app in Ht as [Hpre _]. apply text_app. split; [done|].
    by repeat constructor. }
  assert (pre ++ [sep; 0%Z] = (pre ++ [sep]) ++ [0%Z]) as E
    by by rewrite <- app_assoc.
  exists (set_data s (Some (pre ++ [sep; 0%Z]))), h1, h2.
  split; [by eapply str_pop_back_block|]. split.
  - unfold content. simpl. rewrite E. by rewrite cstr_string.
  - rewrite (str_pop_back_block (set_data s (Some (pre ++ [sep; 0%Z])))
               (pre ++ [sep; 0%Z]) pre sep [] h1 j2 h2); try done.
    + rewrite E. by apply string_terminated.
    + rewrite E. by apply cstr_string.
    + apply not_elem_of_nil.
Qed.

Lemma pop_back_twice_witness :
  ∃ s1 h1 h2,
    str_pop_back (Some {| data := Some (lit "/usr/local/bin"); is_dynamic := true |})
      47 [] = (0%Z, Some s1, h1)
    ∧ content (Some s1) = Some (bytes "/usr/local" ++ [47%Z])
    ∧ str_pop_back (Some s1) 47 h1 = (0%Z, Some s1, h2).
Proof.
  apply (pop_back_twice {| data := Some (lit "/usr/local/bin"); is_dynamic := true |}
           (lit "/usr/local/bin") (bytes "/usr/local") (bytes "bin") 47 []).
  - reflexivity.
  - unfold terminated. vm_compute. lia.
  - reflexivity.
  - lia.
  - vm_compute. intros H. repeat (apply elem_of_cons in H as [H|H]; [lia|]).
    by apply elem_of_nil in H.
  - constructor.
Defined.
